(** * Main.py: hybrid rule-based + Wikipedia chatbot

    A shallow embedding of [Main.py] and of the parts of CPython's
    [str], [re] and [difflib] that it calls, followed by the properties
    of the answer-resolution pipeline.

    Conventions of the embedding:
    - a Python [str] is a list of characters; a character is an [ascii]
      read as a code point in U+0000..U+00FF, and the character classes
      below are CPython's on that range; text with code points beyond
      it is outside the model.  Reply and answer texts are only
      concatenated and tested for emptiness, so the literals that
      contain characters beyond that range are carried byte by byte;
    - a Python [float] similarity score is the exact rational [2*M/T]
      in lowest terms, and a cutoff is a rational.  Division of floats
      rounds to nearest, so the comparisons with 0.6, 0.8 and 1.0 come
      out as on the rationals for every sequence a machine can hold;
    - a [dict] is an association list in insertion order;
    - a Python exception is a value of [exn], a computation that may
      raise has type [outcome];
    - the [wikipedia] package is an oracle over an abstract world. *)

From Stdlib Require Import Ascii String List Bool Arith PeanoNat ZArith QArith Qreduction Lia.
From Stdlib Require Import Sorted.
Import ListNotations.

Close Scope Q_scope.
Open Scope nat_scope.

Set Implicit Arguments.

(** ** Python strings *)

Definition str := list ascii.

Definition lit (s : string) : str := list_ascii_of_string s.

Definition code (c : ascii) : nat := nat_of_ascii c.

Definition between (lo hi n : nat) : bool := (lo <=? n) && (n <=? hi).

(** [str.isspace], which is also what [\s] matches and what
    [str.strip()] removes. *)
Definition is_space (c : ascii) : bool :=
  let n := code c in
  between 9 13 n || between 28 32 n || (n =? 133) || (n =? 160).

(** What [str.isalnum] accepts. *)
Definition is_alnum (c : ascii) : bool :=
  let n := code c in
  between 48 57 n || between 65 90 n || between 97 122 n
  || (n =? 170) || between 178 179 n || (n =? 181) || between 185 186 n
  || between 188 190 n || between 192 214 n || between 216 246 n
  || between 248 255 n.

(** What [\w] matches: alphanumerics and the underscore. *)
Definition is_word (c : ascii) : bool := is_alnum c || (code c =? 95).

Definition is_upper (c : ascii) : bool :=
  let n := code c in
  between 65 90 n || between 192 214 n || between 216 222 n.

Definition lower_char (c : ascii) : ascii :=
  if is_upper c then ascii_of_nat (code c + 32) else c.

(** [str.lower()] *)
Definition lower (s : str) : str := map lower_char s.

Fixpoint drop_while (p : ascii -> bool) (s : str) : str :=
  match s with
  | [] => []
  | c :: s' => if p c then drop_while p s' else s
  end.

Definition lstrip (s : str) : str := drop_while is_space s.
Definition rstrip (s : str) : str := rev (drop_while is_space (rev s)).

(** [str.strip()] *)
Definition strip (s : str) : str := rstrip (lstrip s).

Fixpoint str_eqb (s t : str) : bool :=
  match s, t with
  | [], [] => true
  | c :: s', d :: t' => Ascii.eqb c d && str_eqb s' t'
  | _, _ => false
  end.

Fixpoint startswith (s p : str) {struct p} : bool :=
  match p, s with
  | [], _ => true
  | c :: p', d :: s' => Ascii.eqb c d && startswith s' p'
  | _ :: _, [] => false
  end.

(** [p in s] on strings: [p] occurs in [s] as a contiguous substring. *)
Fixpoint contains (p s : str) : bool :=
  startswith s p ||
  match s with
  | [] => false
  | _ :: s' => contains p s'
  end.

(** [re.sub(r"[^\w\s]", '', text)]: the characters that are neither
    word characters nor whitespace are deleted. *)
Definition sub_nonword_nonspace (text : str) : str :=
  filter (fun c => is_word c || is_space c) text.

(** [re.sub(r"\s+", " ", text)]: every maximal run of whitespace is
    replaced by one space; [in_run] tells that the previous character
    belonged to the run being replaced. *)
Fixpoint sub_space_runs (in_run : bool) (text : str) : str :=
  match text with
  | [] => []
  | c :: rest =>
      if is_space c
      then if in_run then sub_space_runs true rest
           else " "%char :: sub_space_runs true rest
      else c :: sub_space_runs false rest
  end.

(** ** Main.py: helpers *)

Definition normalize_text (text : str) : str :=
  let text := strip (lower text) in
  let text := sub_nonword_nonspace text in
  let text := sub_space_runs false text in
  text.

(** ** Exceptions *)

(** The exceptions the program can meet.  All of them are subclasses of
    Python's [Exception]; [OtherException] stands for any further
    subclass a provider raises (HTTP timeouts, connection errors, ...).
    Signals of the interpreter that are not [Exception]s
    ([KeyboardInterrupt], [SystemExit]) are not provider behaviour and
    are not modelled. *)
Inductive exn : Type :=
| ValueError
| KeyError
| IndexError
| DisambiguationError (options : list str)
| PageError
| OtherException (code : nat).

Inductive outcome (A : Type) : Type :=
| Return (a : A)
| Raise (e : exn).

Arguments Return {A} a.
Arguments Raise {A} e.

(** ** difflib *)

(** [_calculate_ratio(matches, length)] *)
Definition calculate_ratio (matches length : nat) : Q :=
  if length =? 0 then 1%Q
  else Qred (Z.of_nat (2 * matches) # Pos.of_nat length).

(** A [Match(a, b, size)] triple. *)
Definition block := (nat * nat * nat)%type.

Definition block_size (x : block) : nat := snd x.

(** Tuple comparison on triples of integers, as [list.sort()] uses it. *)
Definition block_ltb (x y : block) : bool :=
  let '(i1, j1, k1) := x in
  let '(i2, j2, k2) := y in
  (i1 <? i2) || ((i1 =? i2) && ((j1 <? j2) || ((j1 =? j2) && (k1 <? k2)))).

Section SequenceMatcher.

Variable A : Type.
Variable eqb : A -> A -> bool.
(** The order of elements, used when tuples [(score, x)] tie on the
    score. *)
Variable ltb : A -> A -> bool.

(** [isjunk] is [None] in every use, so [bjunk] is the empty set. *)
Definition isbjunk (elt : A) : bool := false.

Fixpoint indices_from (start : nat) (elt : A) (b : list A) : list nat :=
  match b with
  | [] => []
  | x :: b' =>
      if eqb x elt then start :: indices_from (S start) elt b'
      else indices_from (S start) elt b'
  end.

(** [__chain_b]: [b2j.get(elt, [])] after the purge of popular
    elements ([autojunk] is left at its default [True]). *)
Definition b2j (b : list A) (elt : A) : list nat :=
  let idxs := indices_from 0 elt b in
  let n := length b in
  if (200 <=? n) && (n / 100 + 1 <? length idxs) then [] else idxs.

(** [a[i] == b[j]], both indices in range. *)
Definition same_at (a b : list A) (i j : nat) : bool :=
  match nth_error a i, nth_error b j with
  | Some x, Some y => eqb x y
  | _, _ => false
  end.

Definition junk_at (b : list A) (j : nat) : bool :=
  match nth_error b j with
  | Some y => isbjunk y
  | None => false
  end.

(** [j2len.get(j-1, 0)]; an absent key reads as 0, stored lengths are
    positive. *)
Definition j2len_get_pred (j2len : nat -> nat) (j : nat) : nat :=
  match j with
  | 0 => 0
  | S j' => j2len j'
  end.

Definition j2len_set (j2len : nat -> nat) (j k : nat) : nat -> nat :=
  fun j' => if j' =? j then k else j2len j'.

(** The inner loop of [find_longest_match] over [b2j.get(a[i], [])],
    with its [continue] and [break].  Indices are never negative, so
    [i-k+1] is written [i+1-k]. *)
Fixpoint flm_row (js : list nat) (i blo bhi : nat)
         (j2len newj2len : nat -> nat) (best : block)
  : (nat -> nat) * block :=
  match js with
  | [] => (newj2len, best)
  | j :: js' =>
      if j <? blo then flm_row js' i blo bhi j2len newj2len best
      else if bhi <=? j then (newj2len, best)
      else
        let k := j2len_get_pred j2len j + 1 in
        let newj2len := j2len_set newj2len j k in
        let best := if block_size best <? k then (i + 1 - k, j + 1 - k, k)
                    else best in
        flm_row js' i blo bhi j2len newj2len best
  end.

(** The outer loop, [for i in range(alo, ahi)]; [ahi] never exceeds
    [len(a)], so [a[i]] is in range. *)
Fixpoint flm_rows (rows : list nat) (a b : list A) (blo bhi : nat)
         (j2len : nat -> nat) (best : block) : block :=
  match rows with
  | [] => best
  | i :: rows' =>
      let js := match nth_error a i with
                | Some x => b2j b x
                | None => []
                end in
      let '(newj2len, best) :=
        flm_row js i blo bhi j2len (fun _ => 0) best in
      flm_rows rows' a b blo bhi newj2len best
  end.

(** [while besti > alo and bestj > blo and isbjunk(b[bestj-1]) == junk
    and a[besti-1] == b[bestj-1]]: one step per decrement of
    [besti]. *)
Fixpoint extend_left (junk : bool) (a b : list A) (alo blo : nat)
         (besti bestj bestsize : nat) {struct besti} : block :=
  match besti, bestj with
  | S i', S j' =>
      if (alo <? besti) && (blo <? bestj)
         && Bool.eqb (junk_at b j') junk && same_at a b i' j'
      then extend_left junk a b alo blo i' j' (S bestsize)
      else (besti, bestj, bestsize)
  | _, _ => (besti, bestj, bestsize)
  end.

(** [while besti+bestsize < ahi and bestj+bestsize < bhi and ...]:
    [gap] counts the elements left before [ahi]. *)
Fixpoint extend_right (gap : nat) (junk : bool) (a b : list A)
         (ahi bhi : nat) (besti bestj bestsize : nat) : block :=
  match gap with
  | 0 => (besti, bestj, bestsize)
  | S gap' =>
      if (besti + bestsize <? ahi) && (bestj + bestsize <? bhi)
         && Bool.eqb (junk_at b (bestj + bestsize)) junk
         && same_at a b (besti + bestsize) (bestj + bestsize)
      then extend_right gap' junk a b ahi bhi besti bestj (S bestsize)
      else (besti, bestj, bestsize)
  end.

Definition find_longest_match (a b : list A) (alo ahi blo bhi : nat)
  : block :=
  let best := flm_rows (seq alo (ahi - alo)) a b blo bhi
                       (fun _ => 0) (alo, blo, 0) in
  let '(besti, bestj, bestsize) := best in
  let '(besti, bestj, bestsize) :=
    extend_left false a b alo blo besti bestj bestsize in
  let '(besti, bestj, bestsize) :=
    extend_right (ahi - (besti + bestsize)) false a b ahi bhi
                 besti bestj bestsize in
  let '(besti, bestj, bestsize) :=
    extend_left true a b alo blo besti bestj bestsize in
  let '(besti, bestj, bestsize) :=
    extend_right (ahi - (besti + bestsize)) true a b ahi bhi
                 besti bestj bestsize in
  (besti, bestj, bestsize).

(** The [while queue:] loop of [get_matching_blocks].  The head of
    [queue] is the end of the Python list, where [pop] and [append]
    work.  [fuel] bounds the number of iterations. *)
Fixpoint blocks_loop (fuel : nat) (a b : list A)
         (queue : list (nat * nat * nat * nat))
         (matching_blocks : list block) : list block :=
  match fuel with
  | 0 => matching_blocks
  | S fuel' =>
      match queue with
      | [] => matching_blocks
      | (alo, ahi, blo, bhi) :: queue =>
          let '(i, j, k) := find_longest_match a b alo ahi blo bhi in
          if k =? 0 then blocks_loop fuel' a b queue matching_blocks
          else
            let queue :=
              if (alo <? i) && (blo <? j) then (alo, i, blo, j) :: queue
              else queue in
            let queue :=
              if (i + k <? ahi) && (j + k <? bhi)
              then (i + k, ahi, j + k, bhi) :: queue
              else queue in
            blocks_loop fuel' a b queue (matching_blocks ++ [(i, j, k)])
      end
  end.

(** [matching_blocks.sort()] *)
Fixpoint block_insert (x : block) (l : list block) : list block :=
  match l with
  | [] => [x]
  | y :: l' => if block_ltb y x then y :: block_insert x l' else x :: l
  end.

Definition block_sort (l : list block) : list block :=
  fold_right block_insert [] l.

(** The loop that collapses adjacent blocks; [cur] is [(i1, j1, k1)]. *)
Fixpoint collapse_adjacent (cur : block) (l : list block) : list block :=
  match l with
  | [] => if block_size cur =? 0 then [] else [cur]
  | (i2, j2, k2) :: l' =>
      let '(i1, j1, k1) := cur in
      if (i1 + k1 =? i2) && (j1 + k1 =? j2)
      then collapse_adjacent (i1, j1, k1 + k2) l'
      else (if k1 =? 0 then [] else [cur])
           ++ collapse_adjacent (i2, j2, k2) l'
  end.

(** Every iteration of the loop pops one range, and a range that is
    split loses at least one element, so [2 * la + 1] iterations
    empty the queue. *)
Definition get_matching_blocks (a b : list A) : list block :=
  let la := length a in
  let lb := length b in
  let matching_blocks :=
    blocks_loop (2 * la + 1) a b [(0, la, 0, lb)] [] in
  let non_adjacent :=
    collapse_adjacent (0, 0, 0) (block_sort matching_blocks) in
  non_adjacent ++ [(la, lb, 0)].

Definition sum_sizes (l : list block) : nat :=
  fold_right (fun x acc => block_size x + acc) 0 l.

(** [SequenceMatcher(None, a, b).ratio()] *)
Definition ratio (a b : list A) : Q :=
  calculate_ratio (sum_sizes (get_matching_blocks a b))
                  (length a + length b).

Fixpoint count_elt (elt : A) (b : list A) : nat :=
  match b with
  | [] => 0
  | x :: b' => (if eqb x elt then 1 else 0) + count_elt elt b'
  end.

(** The loop of [quick_ratio] over [a]; [avail] is a dict from
    elements to integers. *)
Fixpoint quick_loop (a b : list A) (avail : A -> option Z)
         (matches : nat) : nat :=
  match a with
  | [] => matches
  | elt :: a' =>
      let numb := match avail elt with
                  | Some v => v
                  | None => Z.of_nat (count_elt elt b)
                  end in
      let avail := fun y => if eqb y elt then Some (numb - 1)%Z
                            else avail y in
      quick_loop a' b avail (if (0 <? numb)%Z then matches + 1 else matches)
  end.

Definition quick_ratio (a b : list A) : Q :=
  calculate_ratio (quick_loop a b (fun _ => None) 0) (length a + length b).

Definition real_quick_ratio (a b : list A) : Q :=
  calculate_ratio (Nat.min (length a) (length b)) (length a + length b).

(** Comparison of sequences and of [(score, x)] tuples. *)
Fixpoint seq_ltb (x y : list A) : bool :=
  match x, y with
  | [], [] => false
  | [], _ :: _ => true
  | _ :: _, [] => false
  | c :: x', d :: y' => ltb c d || (eqb c d && seq_ltb x' y')
  end.

Definition scored_ltb (p q : Q * list A) : bool :=
  match (fst p ?= fst q)%Q with
  | Lt => true
  | Eq => seq_ltb (snd p) (snd q)
  | Gt => false
  end.

(** [heapq.nlargest(n, result)], that is
    [sorted(result, reverse=True)[:n]]. *)
Fixpoint scored_insert (p : Q * list A) (l : list (Q * list A))
  : list (Q * list A) :=
  match l with
  | [] => [p]
  | q :: l' => if scored_ltb p q then q :: scored_insert p l' else p :: l
  end.

Definition sorted_reverse (l : list (Q * list A)) : list (Q * list A) :=
  fold_right scored_insert [] l.

Definition nlargest (n : Z) (l : list (Q * list A)) : list (Q * list A) :=
  firstn (Z.to_nat n) (sorted_reverse l).

Definition close_enough (word : list A) (cutoff : Q) (x : list A) : bool :=
  Qle_bool cutoff (real_quick_ratio x word)
  && Qle_bool cutoff (quick_ratio x word)
  && Qle_bool cutoff (ratio x word).

(** [difflib.get_close_matches(word, possibilities, n, cutoff)];
    [seq1] is the candidate and [seq2] the word. *)
Definition get_close_matches (word : list A) (possibilities : list (list A))
           (n : Z) (cutoff : Q) : outcome (list (list A)) :=
  if negb (0 <? n)%Z then Raise ValueError
  else if negb (Qle_bool 0 cutoff && Qle_bool cutoff 1) then Raise ValueError
  else
    let result :=
      map (fun x => (ratio x word, x))
          (filter (close_enough word cutoff) possibilities) in
    Return (map snd (nlargest n result)).

End SequenceMatcher.

(** ** Notions used to state the properties of difflib *)

Definition range := (nat * nat * nat * nat)%type.

Definition range_ok (r : range) : Prop :=
  let '(alo, ahi, blo, bhi) := r in alo <= ahi /\ blo <= bhi.

Definition width_a (r : range) : nat :=
  let '(alo, ahi, _, _) := r in ahi - alo.

Definition width_b (r : range) : nat :=
  let '(_, _, blo, bhi) := r in bhi - blo.

Definition sum_a (q : list range) : nat :=
  fold_right (fun r acc => width_a r + acc) 0 q.

Definition sum_b (q : list range) : nat :=
  fold_right (fun r acc => width_b r + acc) 0 q.

(** A bound on the iterations the queue still needs. *)
Definition work (q : list range) : nat :=
  fold_right (fun r acc => 2 * width_a r + 1 + acc) 0 q.

Section SequenceMatcherNotions.

Variable A : Type.
Variable eqb : A -> A -> bool.

(** [a[i:i+k] == b[j:j+k]], all indices in range. *)
Definition matches_at (a b : list A) (i j k : nat) : Prop :=
  forall t, t < k ->
            exists x, nth_error a (i + t) = Some x /\ nth_error b (j + t) = Some x.

(** A block inside [a[alo:ahi]] and [b[blo:bhi]]. *)
Definition valid_block (a b : list A) (alo ahi blo bhi : nat) (x : block)
  : Prop :=
  let '(i, j, k) := x in
  alo <= i /\ i + k <= ahi /\ blo <= j /\ j + k <= bhi /\ matches_at a b i j k.

(** A row of [j2len]: a positive entry at [j] is the length of a match
    that ends at column [j] and just before row [e]. *)
Definition row_inv (a b : list A) (alo blo bhi e : nat) (m : nat -> nat)
  : Prop :=
  forall j, m j = 0 \/
            exists si sj, si + m j = e /\ sj + m j = j + 1 /\
                          alo <= si /\ blo <= sj /\ j < bhi /\
                          matches_at a b si sj (m j).

(** The two sides of a range are equal, element by element. *)
Definition aligned (a b : list A) (r : range) : Prop :=
  let '(alo, ahi, blo, bhi) := r in
  ahi - alo = bhi - blo /\ matches_at a b alo blo (ahi - alo).

(** The element at [i] survived the purge of popular elements. *)
Definition kept (a : list A) (i : nat) : bool :=
  match nth_error a i with
  | Some x => match b2j eqb a x with
              | [] => false
              | _ :: _ => true
              end
  | None => false
  end.

(** The number of consecutive kept elements that end at [i]. *)
Fixpoint diag (a : list A) (i : nat) : nat :=
  match i with
  | 0 => if kept a 0 then 1 else 0
  | S i' => if kept a (S i') then S (diag a i') else 0
  end.

Definition pdiag (a : list A) (i : nat) : nat :=
  match i with
  | 0 => 0
  | S i' => diag a i'
  end.

(** The value [quick_ratio] reads for an element: the entry of [avail]
    or, without one, the count in [b]. *)
Definition avail_val (b : list A) (avail : A -> option Z) (x : A) : Z :=
  match avail x with
  | Some v => v
  | None => Z.of_nat (count_elt eqb x b)
  end.

End SequenceMatcherNotions.

Arguments matches_at {A} a b i j k.
Arguments valid_block {A} a b alo ahi blo bhi x.
Arguments row_inv {A} a b alo blo bhi e m.
Arguments aligned {A} a b r.
Arguments kept {A} eqb a i.
Arguments diag {A} eqb a i.
Arguments pdiag {A} eqb a i.
Arguments avail_val {A} eqb b avail x.

(** Two adjacent whitespace characters. *)
Fixpoint has_space_run (s : str) : bool :=
  match s with
  | c :: (d :: _) as rest => (is_space c && is_space d) || has_space_run rest
  | _ => false
  end.

(** ** Python containers *)

Definition ascii_ltb (c d : ascii) : bool := code c <? code d.

(** [l[0]] *)
Definition getitem0 (A : Type) (l : list A) : outcome A :=
  match l with
  | x :: _ => Return x
  | [] => Raise IndexError
  end.

(** A [dict] from [str] to [str], in insertion order. *)
Definition dict := list (str * str).

Definition keys (kb : dict) : list str := map fst kb.

Fixpoint dict_get (kb : dict) (k : str) : option str :=
  match kb with
  | [] => None
  | (k', v) :: kb' => if str_eqb k' k then Some v else dict_get kb' k
  end.

(** [kb[k]] *)
Definition dict_getitem (kb : dict) (k : str) : outcome str :=
  match dict_get kb k with
  | Some v => Return v
  | None => Raise KeyError
  end.

(** [x < y] on floats. *)
Definition Qlt_bool (x y : Q) : bool := negb (Qle_bool y x).

(** Truth value of an optional string: [None] and the empty string
    are false. *)
Definition truthy (x : option str) : bool :=
  match x with
  | Some (_ :: _) => true
  | _ => false
  end.

(** The text of an optional string, as [f"{x}"] gives it. *)
Definition format_value (x : option str) : str :=
  match x with
  | Some s => s
  | None => lit "None"
  end.

Definition nl : str := ["010"%char].

(** ** Main.py: knowledge base and settings *)

Definition QA_KB : dict :=
  [ (lit "what is python",
     lit "Python is a high-level, interpreted programming language known for its readability and large ecosystem.");
    (lit "who is elon musk",
     lit "Elon Musk is an entrepreneur and CEO of Tesla and SpaceX, among other ventures.");
    (lit "what is ai",
     lit "AI stands for Artificial Intelligence — the simulation of human intelligence in machines.");
    (lit "what is github",
     lit "GitHub is a platform for hosting and collaborating on software projects using Git.");
    (lit "how to learn programming",
     lit "Start with fundamentals (variables, loops, functions), build small projects, and practice consistently.");
    (lit "what is machine learning",
     lit "Machine Learning is a subset of AI that allows systems to learn patterns from data and make predictions.") ].

Definition FUZZY_CUTOFF : Q := (6 # 10)%Q.
Definition WIKI_SENTENCES : Z := 2%Z.

(** ** Main.py: find_best_local_answer *)

(** A returned triple [(match_key, answer, score)]; [None] is [None]. *)
Definition match_result := (option str * option str * Q)%type.

Definition similarity (a b : str) : Q := ratio Ascii.eqb a b.

(** The [for k in keys:] loop of the substring fallback, with the
    [return None, None, 0.0] that follows it. *)
Fixpoint substring_fallback (ks : list str) (kb : dict) (user_q_norm : str)
         (cutoff : Q) : outcome match_result :=
  match ks with
  | [] => Return (None, None, 0%Q)
  | k :: ks' =>
      if contains k user_q_norm || contains user_q_norm k
      then
        let score := similarity user_q_norm k in
        if Qle_bool cutoff score
        then match dict_getitem kb k with
             | Return answer => Return (Some k, Some answer, score)
             | Raise e => Raise e
             end
        else substring_fallback ks' kb user_q_norm cutoff
      else substring_fallback ks' kb user_q_norm cutoff
  end.

Definition find_best_local_answer (user_q : str) (kb : dict) (cutoff : Q)
  : outcome match_result :=
  let user_q_norm := normalize_text user_q in
  let keys := keys kb in
  match get_close_matches Ascii.eqb ascii_ltb user_q_norm keys 3 cutoff with
  | Raise e => Raise e
  | Return matches =>
      match matches with
      | best :: _ =>
          let score := similarity user_q_norm best in
          match dict_getitem kb best with
          | Return answer => Return (Some best, Some answer, score)
          | Raise e => Raise e
          end
      | [] => substring_fallback keys kb user_q_norm cutoff
      end
  end.

(** ** The wikipedia package *)

(** A request sent to the provider. *)
Inductive call : Type :=
| CallSearch (query : str) (results : Z)
| CallSummary (title : str) (sentences : Z) (auto_suggest redirect : bool).

Section Chatbot.

(** The state of the outside world the provider depends on, and the
    two operations of the package the program uses.  Each may return
    or raise, and each may change the world. *)
Variable World : Type.
Variable wikipedia_search : str -> Z -> World -> outcome (list str) * World.
Variable wikipedia_summary :
  str -> Z -> bool -> bool -> World -> outcome str * World.

(** The world together with the log of requests made so far. *)
Record state : Type := { world : World; calls : list call }.

(** Computations that read and change the state and may raise. *)
Definition M (A : Type) : Type := state -> outcome A * state.

Definition ret (A : Type) (a : A) : M A := fun s => (Return a, s).

Definition bind (A B : Type) (m : M A) (f : A -> M B) : M B :=
  fun s =>
    match m s with
    | (Return a, s') => f a s'
    | (Raise e, s') => (Raise e, s')
    end.

Definition lift (A : Type) (o : outcome A) : M A := fun s => (o, s).

(** [try: body  except ...: handler] *)
Definition try_except (A : Type) (body : M A) (handler : exn -> M A) : M A :=
  fun s =>
    match body s with
    | (Return a, s') => (Return a, s')
    | (Raise e, s') => handler e s'
    end.

Notation "x <- m ;; k" := (bind m (fun x => k))
  (at level 61, m at next level, right associativity).

Definition search (query : str) (results : Z) : M (list str) :=
  fun s =>
    let (r, w) := wikipedia_search query results (world s) in
    (r, {| world := w; calls := calls s ++ [CallSearch query results] |}).

Definition summary (title : str) (sentences : Z)
           (auto_suggest redirect : bool) : M str :=
  fun s =>
    let (r, w) :=
      wikipedia_summary title sentences auto_suggest redirect (world s) in
    (r, {| world := w;
           calls := calls s
                    ++ [CallSummary title sentences auto_suggest redirect] |}).

(** [f"According to Wikipedia ({title}):\n{summary}"] *)
Definition format_summary (title text : str) : str :=
  lit "According to Wikipedia (" ++ title ++ lit "):" ++ nl ++ text.

(** ** Main.py: fetch_wikipedia_summary *)

Definition fetch_wikipedia_summary (query : str) (sentences : Z)
  : M (option str) :=
  try_except
    (search_results <- search query 5 ;;
     match search_results with
     | [] => ret None
     | _ :: _ =>
         page_title <- lift (getitem0 search_results) ;;
         text <- summary page_title sentences false true ;;
         ret (Some (format_summary page_title text))
     end)
    (fun e =>
       match e with
       | DisambiguationError options =>
           try_except
             (option <- lift (getitem0 options) ;;
              text <- summary option sentences false true ;;
              ret (Some (format_summary option text)))
             (fun _ => ret None)
       | PageError => ret None
       | _ => ret None
       end).

(** ** Main.py: chatbot_reply *)

Definition GREETING : str := lit "Hello! How can I help you today?".
Definition SORRY : str :=
  lit "Sorry, I couldn't find an answer. Try rephrasing or ask something else.".

(** [chatbot_reply] reads the module-level [QA_KB], which the source
    declares editable; here the dictionary is the argument [kb], and
    [chatbot_reply QA_KB] is the program as shipped. *)
Definition chatbot_reply (kb : dict) (user_input : str) : M str :=
  let user_input := strip user_input in
  if str_eqb user_input []
  then ret (lit "Please type something — I didn't get your message.")
  else
  let low := lower user_input in
  if existsb (fun g => contains g low) [lit "hi"; lit "hello"; lit "hey"]
  then ret GREETING
  else
  if contains (lit "how are you") low || contains (lit "how r you") low
     || contains (lit "how are u") low
  then ret (lit "I'm a program, doing fine! How about you?")
  else
  if contains (lit "your name") low || contains (lit "who are you") low
  then ret (lit "I'm ChatBot — a hybrid assistant (local + Wikipedia). Type 'help' to see options.")
  else
  if existsb (str_eqb (strip low)) [lit "thanks"; lit "thank you"; lit "thx"]
  then ret (lit "You're welcome!")
  else
  if existsb (str_eqb (strip low))
             [lit "bye"; lit "goodbye"; lit "exit"; lit "quit"]
  then ret (lit "Goodbye! Have a great day")
  else
  if str_eqb (strip low) (lit "help")
  then ret (lit "I can answer common questions from my local knowledge base. "
            ++ lit "If I don't know, I'll try Wikipedia. Examples:" ++ nl
            ++ lit "- Who is Elon Musk?" ++ nl ++ lit "- What is Python?" ++ nl
            ++ lit "Type 'exit' to leave.")
  else
  r <- lift (find_best_local_answer user_input kb FUZZY_CUTOFF) ;;
  let '(match_key, answer, score) := r in
  if truthy answer
  then
    if Qlt_bool score (8 # 10)%Q
    then ret (lit "(Local) " ++ format_value answer)
    else ret (format_value answer)
  else
  wiki_ans <- fetch_wikipedia_summary user_input WIKI_SENTENCES ;;
  if truthy wiki_ans
  then ret (format_value wiki_ans)
  else ret SORRY.

(** The guards in front of the local lookup: the input is not empty
    after trimming and no quick-reply rule fires. *)
Definition reaches_local_lookup (user_input : str) : bool :=
  let user_input := strip user_input in
  let low := lower user_input in
  negb (str_eqb user_input [])
  && negb (existsb (fun g => contains g low)
                   [lit "hi"; lit "hello"; lit "hey"])
  && negb (contains (lit "how are you") low || contains (lit "how r you") low
           || contains (lit "how are u") low)
  && negb (contains (lit "your name") low || contains (lit "who are you") low)
  && negb (existsb (str_eqb (strip low))
                   [lit "thanks"; lit "thank you"; lit "thx"])
  && negb (existsb (str_eqb (strip low))
                   [lit "bye"; lit "goodbye"; lit "exit"; lit "quit"])
  && negb (str_eqb (strip low) (lit "help")).

End Chatbot.

(** The test of the substring fallback on one key: the key and the
    normalized query contain one another, and they are similar enough. *)
Definition substring_candidate (user_q_norm : str) (cutoff : Q) (k : str)
  : bool :=
  (contains k user_q_norm || contains user_q_norm k)
  && Qle_bool cutoff (similarity user_q_norm k).

(** The greeting keywords of [chatbot_reply]. *)
Definition greetings : list str := [lit "hi"; lit "hello"; lit "hey"].

(** A query reaches an entry of the knowledge base when it passes the
    quick-reply rules and the local lookup returns that entry's key. *)
Definition reaches_entry (kb : dict) (key user_input : str) : Prop :=
  reaches_local_lookup user_input = true /\
  exists answer score,
    find_best_local_answer (strip user_input) kb FUZZY_CUTOFF
    = Return (Some key, Some answer, score).

(** ** Providers for the examples *)

(** A provider that knows nothing: searches come back empty and no
    page exists. *)
Definition silent_search (query : str) (results : Z) (w : unit)
  : outcome (list str) * unit := (Return [], w).

Definition silent_summary (title : str) (sentences : Z)
           (auto_suggest redirect : bool) (w : unit)
  : outcome str * unit := (Raise PageError, w).

(** A provider whose top result is an ambiguous title. *)
Definition mercury_search (query : str) (results : Z) (w : unit)
  : outcome (list str) * unit := (Return [lit "Mercury"], w).

Definition mercury_summary (title : str) (sentences : Z)
           (auto_suggest redirect : bool) (w : unit)
  : outcome str * unit :=
  if str_eqb title (lit "Mercury")
  then (Raise (DisambiguationError
                 [lit "Mercury (planet)"; lit "Mercury (element)"]), w)
  else if str_eqb title (lit "Mercury (planet)")
  then (Return (lit "Mercury is the first planet from the Sun."), w)
  else (Raise PageError, w).

Definition start : state unit := {| world := tt; calls := [] |}.

(** A knowledge base with one long key, and a query of 201 characters
    that contains the key.  Every character of the query is popular,
    so the ranked pass, which indexes the query, finds no match. *)
Definition long_key : str := concat (repeat (lit "ab") 60).
Definition long_query : str := lit "b" ++ concat (repeat (lit "ab") 100).
Definition long_kb : dict := [(long_key, lit "a long answer")].

(** A knowledge base whose one answer is empty. *)
Definition empty_answer_kb : dict := [(lit "abc", [])].

(** ** Main.py: log_chat and main *)

(** [d[k] = v] *)
Fixpoint dict_set (d : dict) (k v : str) : dict :=
  match d with
  | [] => [(k, v)]
  | (k', v') :: d' =>
      if str_eqb k' k then (k, v) :: d' else (k', v') :: dict_set d' k v
  end.

(** What [open(path, "a")] followed by [write(text)] leaves in the
    file system: a file that does not exist is created. *)
Definition append_file (fs : dict) (path text : str) : dict :=
  dict_set fs path
           match dict_get fs path with
           | Some content => content ++ text
           | None => text
           end.

(** The [OSError] that [open] raises on a path the process may not
    write. *)
Definition PermissionError : exn := OtherException 13.

Definition ENABLE_CHAT_LOG : bool := true.

Definition LOGFILE : str := lit "chat_history.txt".

(** What one call of [input] finds on the standard input: a line
    (without its newline), the end of the input, or an interrupt from
    the keyboard.  An input that is used up is at its end. *)
Inductive input_event : Type :=
| Line (text : str)
| EndOfFile
| Interrupt.

(** The two lines [log_chat] writes for an exchange. *)
Definition log_entry (timestamp user_text bot_text : str) : str :=
  (lit "[" ++ timestamp ++ lit "] You: " ++ user_text ++ nl)
  ++ (lit "[" ++ timestamp ++ lit "] Bot: " ++ bot_text ++ nl ++ nl).

Definition BANNER : str :=
  lit "Hybrid ChatBot: Hello! (type 'help' for tips, 'exit' to quit)" ++ nl.

Section Session.

Variable World : Type.
Variable wikipedia_search : str -> Z -> World -> outcome (list str) * World.
Variable wikipedia_summary :
  str -> Z -> bool -> bool -> World -> outcome str * World.
(** [datetime.datetime.now().strftime("%Y-%m-%d %H:%M:%S")]: the text
    of the current time, read from the world. *)
Variable strftime_now : World -> str * World.
(** What becomes of one [f.write(text)] on the file at a path: it
    returns, or it raises (a text that cannot be encoded, a full disk,
    ...). *)
Variable file_write : str -> str -> World -> outcome unit * World.

(** What the process acts on: the provider with its request log, the
    text written to the standard output, the files, and the paths that
    cannot be opened for writing. *)
Record machine : Type :=
  { net : state World;
    stdout : str;
    files : dict;
    read_only : list str }.

Definition set_net (n : state World) (m : machine) : machine :=
  {| net := n; stdout := stdout m; files := files m;
     read_only := read_only m |}.

(** [sys.stdout.write(text)] *)
Definition write (text : str) (m : machine) : machine :=
  {| net := net m; stdout := stdout m ++ text; files := files m;
     read_only := read_only m |}.

(** [print(text)] *)
Definition print (text : str) (m : machine) : machine :=
  write (text ++ nl) m.

Definition set_world (w : World) (m : machine) : machine :=
  set_net {| world := w; calls := calls (net m) |} m.

Definition set_files (fs : dict) (m : machine) : machine :=
  {| net := net m; stdout := stdout m; files := fs;
     read_only := read_only m |}.

(** [f.write(text)] on the file opened at [path].  Whether the text
    can be encoded and stored is decided outside the program, by
    [file_write]; when it is, the text is added to the file. *)
Definition write_line (path text : str) (m : machine)
  : outcome unit * machine :=
  match file_write path text (world (net m)) with
  | (Raise e, w) => (Raise e, set_world w m)
  | (Return _, w) =>
      (Return tt, set_files (append_file (files m) path text) (set_world w m))
  end.

(** [log_chat] reads the module-level [ENABLE_CHAT_LOG], which the
    source declares a setting; here it is the argument
    [enable_chat_log].  [open(logfile, "a")] raises on a path that
    cannot be written and creates a file that does not exist; an
    exception of a [write] leaves the [with] block after the file is
    closed, with the lines written before it in the file. *)
Definition log_chat (enable_chat_log : bool) (user_text bot_text logfile : str)
           (m : machine) : outcome unit * machine :=
  if negb enable_chat_log then (Return tt, m)
  else
    let (timestamp, w) := strftime_now (world (net m)) in
    let m := set_world w m in
    if existsb (str_eqb logfile) (read_only m)
    then (Raise PermissionError, m)
    else
      let m := set_files (append_file (files m) logfile []) m in
      match write_line logfile
                       (lit "[" ++ timestamp ++ lit "] You: "
                            ++ user_text ++ nl) m
      with
      | (Raise e, m) => (Raise e, m)
      | (Return _, m) =>
          write_line logfile
                     (lit "[" ++ timestamp ++ lit "] Bot: "
                          ++ bot_text ++ nl ++ nl) m
      end.

(** The [while True:] loop of [main] on the events the standard input
    holds; the result carries the events left unread.  [input] writes
    its prompt and then meets the next event; the end of the input and
    an interrupt are the two exceptions the loop catches.  An interrupt
    is modelled where the source catches it, at [input]. *)
Fixpoint main_loop (enable_chat_log : bool) (kb : dict)
         (events : list input_event) (m : machine)
  : outcome unit * machine * list input_event :=
  let m := write (lit "You: ") m in
  match events with
  | Line text :: rest =>
      let user_input := strip text in
      if existsb (str_eqb (lower user_input)) [lit "exit"; lit "quit"]
      then (Return tt, print (lit "ChatBot: Goodbye!") m, rest)
      else
        match chatbot_reply wikipedia_search wikipedia_summary
                            kb user_input (net m) with
        | (Raise e, n) => (Raise e, set_net n m, rest)
        | (Return bot_response, n) =>
            let m := print (lit "ChatBot: " ++ bot_response) (set_net n m) in
            match log_chat enable_chat_log user_input bot_response LOGFILE m
            with
            | (Raise e, m) => (Raise e, m, rest)
            | (Return _, m) => main_loop enable_chat_log kb rest m
            end
        end
  | _ => (Return tt, print (nl ++ lit "ChatBot: Bye!") m, tl events)
  end.

(** [main] reads [ENABLE_CHAT_LOG] and, through [chatbot_reply],
    [QA_KB]; [main ENABLE_CHAT_LOG QA_KB] is the program as shipped. *)
Definition main (enable_chat_log : bool) (kb : dict)
           (events : list input_event) (m : machine)
  : outcome unit * machine * list input_event :=
  main_loop enable_chat_log kb events (print BANNER m).

End Session.

(** The test [main] makes on a line before it answers: the trimmed
    line is "exit" or "quit" in any case. *)
Definition is_exit (text : str) : bool :=
  existsb (str_eqb (lower (strip text))) [lit "exit"; lit "quit"].

(** The event ends the session: an exit line, the end of the input or
    an interrupt. *)
Definition is_stop (ev : input_event) : bool :=
  match ev with
  | Line text => is_exit text
  | EndOfFile => true
  | Interrupt => true
  end.

(** The text of the transcript file; a file that does not exist has
    none. *)
Definition log_content (fs : dict) : str :=
  match dict_get fs LOGFILE with
  | Some content => content
  | None => []
  end.





(** A provider for which every title is ambiguous and names no
    candidate. *)
Definition optionless_summary (title : str) (sentences : Z)
           (auto_suggest redirect : bool) (w : unit)
  : outcome str * unit := (Raise (DisambiguationError []), w).

(** The text of one answered line on the output: the prompt and the
    reply. *)
Definition reply_block (bot_response : str) : str :=
  lit "You: " ++ lit "ChatBot: " ++ bot_response ++ nl.

(** What [main] prints last: after an exit word, and after the end of
    the input or an interrupt. *)
Definition farewell (stop : option input_event) : str :=
  match stop with
  | Some (Line _) => lit "ChatBot: Goodbye!" ++ nl
  | _ => nl ++ lit "ChatBot: Bye!" ++ nl
  end.

(** A medium on which every write succeeds. *)
Definition disk (path text : str) (w : unit) : outcome unit * unit :=
  (Return tt, w).

(** A medium on which no write succeeds: every one raises the error
    of a device without space left. *)
Definition full_disk (path text : str) (w : unit) : outcome unit * unit :=
  (Raise (OtherException 28), w).

(** A provider that has a summary for every title. *)
Definition plain_summary (title : str) (sentences : Z)
           (auto_suggest redirect : bool) (w : unit)
  : outcome str * unit := (Return (lit "A summary of " ++ title), w).

(** A clock for the examples: the world is unchanged and the time is
    fixed. *)
Definition noon (w : unit) : str * unit := (lit "2024-01-01 12:00:00", w).

Definition fresh : machine unit :=
  {| net := start; stdout := []; files := []; read_only := [] |}.

(** A machine on which the transcript cannot be written. *)
Definition locked : machine unit :=
  {| net := start; stdout := []; files := []; read_only := [LOGFILE] |}.

(** * Properties *)

Unset Implicit Arguments.

(** ** Strings *)

Lemma str_eqb_eq (s t : str) : str_eqb s t = true <-> s = t.
Proof.
  revert t; induction s as [|c s IH]; intros [|d t]; simpl;
    try (split; [discriminate | discriminate]); try tauto.
  rewrite andb_true_iff, Ascii.eqb_eq, IH.
  split; [intros [-> ->]; reflexivity | intros [= -> ->]; auto].
Qed.

Lemma str_eqb_refl (s : str) : str_eqb s s = true.
Proof. apply str_eqb_eq; reflexivity. Qed.

Lemma startswith_app (s p : str) :
  startswith s p = true <-> exists r, s = p ++ r.
Proof.
  revert s; induction p as [|c p IH]; intros s; simpl.
  - split; [intros _; exists s; reflexivity | reflexivity].
  - destruct s as [|d s].
    + split; [discriminate | intros [r Hr]; discriminate].
    + rewrite andb_true_iff, Ascii.eqb_eq, IH. split.
      * intros [-> [r ->]]; exists r; reflexivity.
      * intros [r [= -> ->]]; split; [reflexivity | exists r; reflexivity].
Qed.

(** [contains] is Python's substring test. *)
Lemma contains_app (p s : str) :
  contains p s = true <-> exists l r, s = l ++ p ++ r.
Proof.
  induction s as [|d s IH].
  - simpl. rewrite orb_false_r, startswith_app. split.
    + intros [r Hr]; exists [], r; exact Hr.
    + intros [l [r Hr]]. destruct l; [exists r; exact Hr | discriminate].
  - simpl. rewrite orb_true_iff, startswith_app, IH. split.
    + intros [[r Hr] | [l [r Hr]]].
      * exists [], r; exact Hr.
      * exists (d :: l), r; simpl; rewrite Hr; reflexivity.
    + intros [[|x l] [r Hr]].
      * left; exists r; exact Hr.
      * right; injection Hr as -> ->; exists l, r; reflexivity.
Qed.

Lemma contains_refl (s : str) : contains s s = true.
Proof.
  apply contains_app; exists [], []; simpl; rewrite app_nil_r; reflexivity.
Qed.

Lemma is_space_lower_char (c : ascii) : is_space (lower_char c) = is_space c.
Proof. destruct c as [[] [] [] [] [] [] [] []]; reflexivity. Qed.

Lemma lower_char_idem (c : ascii) : lower_char (lower_char c) = lower_char c.
Proof. destruct c as [[] [] [] [] [] [] [] []]; reflexivity. Qed.

Lemma is_word_lower_char (c : ascii) : is_word (lower_char c) = is_word c.
Proof. destruct c as [[] [] [] [] [] [] [] []]; reflexivity. Qed.

Lemma is_upper_lower_char (c : ascii) : is_upper (lower_char c) = false.
Proof. destruct c as [[] [] [] [] [] [] [] []]; reflexivity. Qed.

Lemma lower_app (s t : str) : lower (s ++ t) = lower s ++ lower t.
Proof. apply map_app. Qed.

Lemma lower_idem (s : str) : lower (lower s) = lower s.
Proof.
  unfold lower; rewrite map_map; apply map_ext; intro; apply lower_char_idem.
Qed.

Lemma drop_while_lower (s : str) :
  drop_while is_space (lower s) = lower (drop_while is_space s).
Proof.
  induction s as [|c s IH]; simpl; [reflexivity|].
  rewrite is_space_lower_char; destruct (is_space c); [exact IH | reflexivity].
Qed.

Lemma lower_strip (s : str) : lower (strip s) = strip (lower s).
Proof.
  unfold strip, rstrip, lstrip, lower.
  rewrite map_rev. fold (lower (rev (drop_while is_space s))).
  rewrite <- drop_while_lower. unfold lower at 1. rewrite map_rev.
  fold (lower (drop_while is_space s)). rewrite <- drop_while_lower.
  reflexivity.
Qed.

Lemma contains_lower (p s : str) :
  contains p s = true -> contains (lower p) (lower s) = true.
Proof.
  rewrite !contains_app. intros [l [r ->]].
  exists (lower l), (lower r). rewrite !lower_app; reflexivity.
Qed.

Lemma contains_rev (p s : str) :
  contains p s = true -> contains (rev p) (rev s) = true.
Proof.
  rewrite !contains_app. intros [l [r ->]].
  exists (rev r), (rev l). rewrite !rev_app_distr, app_assoc; reflexivity.
Qed.

(** Dropping leading whitespace keeps every occurrence of a pattern
    that starts with a character that is not whitespace. *)
Lemma contains_drop_while (c : ascii) (p s : str) :
  is_space c = false ->
  contains (c :: p) s = true ->
  contains (c :: p) (drop_while is_space s) = true.
Proof.
  intros Hc. rewrite !contains_app. intros [l [r ->]].
  induction l as [|x l IH]; simpl.
  - rewrite Hc. exists [], r; reflexivity.
  - destruct (is_space x); [exact IH | exists (x :: l), r; reflexivity].
Qed.

(** [strip] keeps every occurrence of a pattern that neither starts
    nor ends with whitespace. *)
Lemma contains_strip (c d : ascii) (p q s : str) :
  is_space c = false -> is_space d = false ->
  c :: p = q ++ [d] ->
  contains (c :: p) s = true -> contains (c :: p) (strip s) = true.
Proof.
  intros Hc Hd Hpq H. unfold strip, rstrip, lstrip.
  apply (contains_drop_while _ _ _ Hc) in H.
  apply contains_rev in H. rewrite Hpq, rev_unit in H.
  apply (contains_drop_while _ _ _ Hd) in H.
  apply contains_rev in H.
  replace (rev (d :: rev q)) with (c :: p) in H
    by (simpl; rewrite rev_involutive; exact Hpq).
  exact H.
Qed.

Lemma contains_not_empty (c : ascii) (p s : str) :
  contains (c :: p) s = true -> s <> [].
Proof.
  rewrite contains_app. intros [l [r ->]]. destruct l; discriminate.
Qed.

Lemma lower_not_empty (s : str) : lower s <> [] -> s <> [].
Proof. intros H ->; apply H; reflexivity. Qed.

(** ** The greeting rule *)

Lemma greeting_not_empty (low : str) :
  existsb (fun g => contains g low) greetings = true -> low <> [].
Proof.
  unfold greetings; simpl. rewrite !orb_true_iff.
  intros [H | [H | [H | H]]]; try discriminate;
    exact (contains_not_empty _ _ _ H).
Qed.

Lemma greeting_survives_strip (low : str) :
  existsb (fun g => contains g low) greetings = true ->
  existsb (fun g => contains g (strip low)) greetings = true.
Proof.
  unfold greetings; simpl. rewrite !orb_true_iff.
  intros [H | [H | [H | H]]]; try discriminate.
  - left. apply (contains_strip "h" "i" _ (lit "h")); auto.
  - right; left. apply (contains_strip "h" "o" _ (lit "hell")); auto.
  - right; right; left. apply (contains_strip "h" "y" _ (lit "he")); auto.
Qed.

Section ChatbotFacts.

Variable World : Type.
Variable wikipedia_search : str -> Z -> World -> outcome (list str) * World.
Variable wikipedia_summary :
  str -> Z -> bool -> bool -> World -> outcome str * World.

Local Abbreviation reply := (chatbot_reply wikipedia_search wikipedia_summary).
Local Abbreviation fetch := (fetch_wikipedia_summary wikipedia_search wikipedia_summary).

(** The greeting branch in terms of the text the function tests. *)
Lemma reply_greeting_low (kb : dict) (user_input : str) (s : state World) :
  existsb (fun g => contains g (lower (strip user_input))) greetings = true ->
  reply kb user_input s = (Return GREETING, s).
Proof.
  intros H. unfold chatbot_reply.
  destruct (str_eqb (strip user_input) []) eqn:E.
  - apply str_eqb_eq in E. apply greeting_not_empty in H.
    exfalso; apply (lower_not_empty _ H); exact E.
  - fold greetings. rewrite H. reflexivity.
Qed.

Lemma reply_greeting (kb : dict) (user_input : str) (s : state World) :
  existsb (fun g => contains g (lower user_input)) greetings = true ->
  reply kb user_input s = (Return GREETING, s).
Proof.
  intros H. apply reply_greeting_low. rewrite lower_strip.
  apply greeting_survives_strip; exact H.
Qed.

End ChatbotFacts.

(** ** normalize_text *)

Lemma drop_while_In (p : ascii -> bool) (s : str) (c : ascii) :
  In c (drop_while p s) -> In c s.
Proof.
  induction s as [|d s IH]; simpl; [tauto|].
  destruct (p d); [right; auto | simpl; tauto].
Qed.

Lemma strip_In (s : str) (c : ascii) : In c (strip s) -> In c s.
Proof.
  unfold strip, rstrip, lstrip. intros H.
  apply in_rev in H. apply drop_while_In in H. apply in_rev in H.
  apply drop_while_In in H. exact H.
Qed.

Lemma sub_space_runs_In (s : str) (c : ascii) :
  forall in_run,
    In c (sub_space_runs in_run s) ->
    c = " "%char \/ (In c s /\ is_space c = false).
Proof.
  induction s as [|d s IH]; intros in_run; simpl; [tauto|].
  destruct (is_space d) eqn:E.
  - destruct in_run; simpl; intros H.
    + destruct (IH _ H) as [-> | [H1 H2]]; auto.
    + destruct H as [<- | H]; auto.
      destruct (IH _ H) as [-> | [H1 H2]]; auto.
  - simpl. intros [<- | H]; auto.
    destruct (IH _ H) as [-> | [H1 H2]]; auto.
Qed.

(** What the output of [normalize_text] does satisfy: it is lowercase,
    it holds word characters and single spaces only, and no two
    whitespace characters are adjacent. *)
Lemma normalize_text_lowercase (text : str) :
  lower (normalize_text text) = normalize_text text.
Proof.
  unfold lower. rewrite <- (map_id (normalize_text text)) at 2.
  apply map_ext_in. intros c Hc. unfold normalize_text in Hc.
  apply sub_space_runs_In in Hc. destruct Hc as [-> | [Hc _]]; [reflexivity|].
  apply filter_In in Hc. destruct Hc as [Hc _]. apply strip_In in Hc.
  apply in_map_iff in Hc. destruct Hc as [d [<- _]]. apply lower_char_idem.
Qed.

Lemma normalize_text_characters (text : str) (c : ascii) :
  In c (normalize_text text) -> is_word c = true \/ c = " "%char.
Proof.
  unfold normalize_text. intros Hc.
  apply sub_space_runs_In in Hc. destruct Hc as [-> | [Hc Hs]]; [auto|].
  apply filter_In in Hc. destruct Hc as [_ Hc]. rewrite Hs, orb_false_r in Hc.
  auto.
Qed.

Lemma sub_space_runs_no_run (s : str) :
  has_space_run (sub_space_runs false s) = false /\
  has_space_run (" "%char :: sub_space_runs true s) = false.
Proof.
  induction s as [|c s [IH1 IH2]]; simpl; [auto|].
  destruct (is_space c) eqn:E.
  - split; exact IH2.
  - assert (H : has_space_run (c :: sub_space_runs false s) = false).
    { simpl. destruct (sub_space_runs false s) as [|d t] eqn:Et; [reflexivity|].
      rewrite E. exact IH1. }
    split; [exact H|].
    change (has_space_run (" "%char :: c :: sub_space_runs false s))
      with ((is_space " "%char && is_space c)
            || has_space_run (c :: sub_space_runs false s)).
    rewrite E, H. reflexivity.
Qed.

Lemma normalize_text_no_space_run (text : str) :
  has_space_run (normalize_text text) = false.
Proof. unfold normalize_text. apply sub_space_runs_no_run. Qed.

(** C7. [normalize_text] is not idempotent: punctuation is removed
    after the trimming, so the space next to a leading or trailing
    punctuation mark survives the first pass and is trimmed by the
    second. *)
Theorem normalize_text_twice_differs :
  normalize_text (lit "AI !") = lit "ai " /\
  normalize_text (normalize_text (lit "AI !")) = lit "ai" /\
  normalize_text (normalize_text (lit "AI !")) <> normalize_text (lit "AI !").
Proof. repeat split; try reflexivity. discriminate. Qed.

(** C8. The output of [normalize_text] can end (or start) with a space
    and can hold an underscore, which is neither alphanumeric nor
    whitespace. *)
Theorem normalize_text_edge_space_and_underscore :
  normalize_text (lit "is_AI ?") = lit "is_ai " /\
  strip (normalize_text (lit "is_AI ?")) <> normalize_text (lit "is_AI ?") /\
  existsb (fun c => negb (is_alnum c || is_space c))
          (normalize_text (lit "is_AI ?")) = true.
Proof. repeat split; try reflexivity. discriminate. Qed.

(** ** fetch_wikipedia_summary *)

Section FetchFacts.

Variable World : Type.
Variable wikipedia_search : str -> Z -> World -> outcome (list str) * World.
Variable wikipedia_summary :
  str -> Z -> bool -> bool -> World -> outcome str * World.

Local Abbreviation fetch :=
  (fetch_wikipedia_summary wikipedia_search wikipedia_summary).

Ltac run_fetch :=
  unfold fetch_wikipedia_summary, try_except, bind, search, summary, lift, ret;
  simpl.

Ltac is_none :=
  do 2 eexists; split; [reflexivity | left; reflexivity].

Ltac is_summary :=
  do 2 eexists; split; [reflexivity | right; do 2 eexists; reflexivity].

(** The function always returns. *)
Lemma fetch_wikipedia_summary_returns
      (query : str) (sentences : Z) (s : state World) :
  exists r s', fetch query sentences s = (Return r, s').
Proof.
  run_fetch.
  destruct (wikipedia_search query 5 (world s)) as [[results | e] w1].
  - destruct results as [|page_title more]; simpl; [eauto|].
    destruct (wikipedia_summary page_title sentences false true w1)
      as [[text | e] w2]; simpl; [eauto|].
    destruct e as [| | | options | |]; simpl; eauto.
    destruct options as [|option others]; simpl; eauto.
    destruct (wikipedia_summary option sentences false true w2)
      as [[text | e] w3]; simpl; eauto.
  - destruct e as [| | | options | |]; simpl; eauto.
    destruct options as [|option others]; simpl; eauto.
    destruct (wikipedia_summary option sentences false true w1)
      as [[text | e'] w3]; simpl; eauto.
Qed.

(** C3. Whatever the provider does, [fetch_wikipedia_summary] returns:
    its result is [None] or a formatted summary, never an exception. *)
Theorem fetch_wikipedia_summary_never_raises
        (query : str) (sentences : Z) (s : state World) :
  exists r s',
    fetch query sentences s = (Return r, s') /\
    (r = None \/ exists title text, r = Some (format_summary title text)).
Proof.
  run_fetch.
  destruct (wikipedia_search query 5 (world s)) as [[results | e] w1].
  - destruct results as [|page_title more]; simpl.
    + is_none.
    + destruct (wikipedia_summary page_title sentences false true w1)
        as [[text | e] w2]; simpl.
      * is_summary.
      * destruct e as [| | | options | |]; simpl; try is_none.
        destruct options as [|option others]; simpl; try is_none.
        destruct (wikipedia_summary option sentences false true w2)
          as [[text | e] w3]; simpl; [is_summary | is_none].
  - destruct e as [| | | options | |]; simpl; try is_none.
    destruct options as [|option others]; simpl; try is_none.
    destruct (wikipedia_summary option sentences false true w1)
      as [[text | e'] w3]; simpl; [is_summary | is_none].
Qed.

(** C4, amended. When the summary request for the top search result
    raises a disambiguation error that carries at least one option,
    exactly one more request is made, a summary request for the first
    option; its text is returned under the attribution line, and any
    failure of it gives [None].  When the error carries no option, the
    result is [None] and no further request is made. *)
Theorem fetch_wikipedia_summary_disambiguation
        (query : str) (sentences : Z) (s : state World)
        (page_title : str) (more : list str) (w1 : World)
        (options : list str) (w2 : World) :
  wikipedia_search query 5 (world s) = (Return (page_title :: more), w1) ->
  wikipedia_summary page_title sentences false true w1
  = (Raise (DisambiguationError options), w2) ->
  (forall option others retry w3,
      options = option :: others ->
      wikipedia_summary option sentences false true w2 = (retry, w3) ->
      fetch query sentences s
      = (Return match retry with
                | Return text =>
                    Some (lit "According to Wikipedia (" ++ option
                              ++ lit "):" ++ nl ++ text)
                | Raise _ => None
                end,
         {| world := w3;
            calls := calls s ++ [CallSearch query 5;
                                 CallSummary page_title sentences false true;
                                 CallSummary option sentences false true] |}))
  /\
  (options = [] ->
   fetch query sentences s
   = (Return None,
      {| world := w2;
         calls := calls s ++ [CallSearch query 5;
                              CallSummary page_title sentences false true]
      |})).
Proof.
  intros Hsearch Hfirst. split.
  - intros option others retry w3 -> Hretry. run_fetch.
    rewrite Hsearch; simpl. rewrite Hfirst; simpl. rewrite Hretry.
    rewrite <- !app_assoc; simpl. destruct retry; reflexivity.
  - intros ->. run_fetch.
    rewrite Hsearch; simpl. rewrite Hfirst; simpl.
    rewrite <- !app_assoc; reflexivity.
Qed.

(** A disambiguation error without options ends the lookup at once. *)
Lemma fetch_wikipedia_summary_no_option
      (query : str) (sentences : Z) (s : state World)
      (page_title : str) (more : list str) (w1 w2 : World) :
  wikipedia_search query 5 (world s) = (Return (page_title :: more), w1) ->
  wikipedia_summary page_title sentences false true w1
  = (Raise (DisambiguationError []), w2) ->
  fetch query sentences s
  = (Return None,
     {| world := w2;
        calls := calls s ++ [CallSearch query 5;
                             CallSummary page_title sentences false true] |}).
Proof.
  intros Hsearch Hfirst. run_fetch.
  rewrite Hsearch; simpl. rewrite Hfirst; simpl.
  rewrite <- !app_assoc; reflexivity.
Qed.

End FetchFacts.

Lemma fetch_wikipedia_summary_disambiguation_witness :
  fetch_wikipedia_summary mercury_search mercury_summary
                          (lit "mercury") WIKI_SENTENCES start
  = (Return (Some (lit "According to Wikipedia (" ++ lit "Mercury (planet)"
                       ++ lit "):" ++ nl
                       ++ lit "Mercury is the first planet from the Sun.")),
     {| world := tt;
        calls := [CallSearch (lit "mercury") 5;
                  CallSummary (lit "Mercury") 2 false true;
                  CallSummary (lit "Mercury (planet)") 2 false true] |}).
Proof.
  destruct (fetch_wikipedia_summary_disambiguation
              unit mercury_search mercury_summary
              (lit "mercury") WIKI_SENTENCES start
              (lit "Mercury") [] tt
              [lit "Mercury (planet)"; lit "Mercury (element)"] tt
              eq_refl eq_refl) as [Hretry _].
  exact (Hretry (lit "Mercury (planet)") [lit "Mercury (element)"]
                (Return (lit "Mercury is the first planet from the Sun.")) tt
                eq_refl eq_refl).
Defined.

(** C4 as stated does not hold: a disambiguation error without
    options is followed by no retry at all. *)
Lemma fetch_wikipedia_summary_disambiguation_without_retry :
  mercury_search (lit "mercury") 5 tt = (Return [lit "Mercury"], tt) /\
  optionless_summary (lit "Mercury") WIKI_SENTENCES false true tt
  = (Raise (DisambiguationError []), tt) /\
  fetch_wikipedia_summary mercury_search optionless_summary
                          (lit "mercury") WIKI_SENTENCES start
  = (Return None,
     {| world := tt;
        calls := [CallSearch (lit "mercury") 5;
                  CallSummary (lit "Mercury") 2 false true] |}).
Proof. repeat split. Qed.

(** ** chatbot_reply: the greeting rule *)

(** C2. An input that is not empty after trimming and whose lowercase
    form contains "hi", "hello" or "hey" gets the canned greeting,
    whatever the knowledge base holds, and the provider is not called:
    the world and the log of requests are unchanged. *)
Theorem chatbot_reply_greeting
        (World : Type)
        (wikipedia_search : str -> Z -> World -> outcome (list str) * World)
        (wikipedia_summary :
           str -> Z -> bool -> bool -> World -> outcome str * World)
        (kb : dict) (user_input : str) (s : state World) :
  strip user_input <> [] ->
  existsb (fun g => contains g (lower user_input)) greetings = true ->
  chatbot_reply wikipedia_search wikipedia_summary kb user_input s
  = (Return (lit "Hello! How can I help you today?"), s).
Proof. intros _ H. apply reply_greeting; exact H. Qed.

Lemma chatbot_reply_greeting_witness :
  chatbot_reply silent_search silent_summary [] (lit " Hello there ") start
  = (Return (lit "Hello! How can I help you today?"), start).
Proof.
  apply (chatbot_reply_greeting unit silent_search silent_summary
                                [] (lit " Hello there ") start).
  - discriminate.
  - reflexivity.
Defined.

(** C9 as stated does not hold: the entry "what is machine learning"
    is reached by a query that misspells it without spelling "hi". *)
Lemma machine_learning_entry_reached :
  reaches_entry QA_KB (lit "what is machine learning")
                (lit "what is macine learning") /\
  chatbot_reply silent_search silent_summary QA_KB
                (lit "what is macine learning") start
  = (Return (lit "Machine Learning is a subset of AI that allows systems to learn patterns from data and make predictions."),
     start).
Proof.
  split; [split; [reflexivity|]|reflexivity].
  eexists; eexists; vm_compute; reflexivity.
Qed.

(** C9, amended. Asked with its own key, the entry "what is machine
    learning" is not returned: the key contains "hi", so the reply is
    the canned greeting, which is not the stored answer; and every
    query that contains "hi" gets the greeting without reaching the
    knowledge base or the provider. *)
Theorem chatbot_reply_hi_shadows_lookup
        (World : Type)
        (wikipedia_search : str -> Z -> World -> outcome (list str) * World)
        (wikipedia_summary :
           str -> Z -> bool -> bool -> World -> outcome str * World)
        (kb : dict) (user_input : str) (s : state World) :
  contains (lit "hi") user_input = true ->
  chatbot_reply wikipedia_search wikipedia_summary kb user_input s
  = (Return GREETING, s) /\
  chatbot_reply wikipedia_search wikipedia_summary QA_KB
                (lit "what is machine learning") s
  = (Return GREETING, s) /\
  dict_get QA_KB (lit "what is machine learning") <> Some GREETING.
Proof.
  intros H. split; [|split].
  - apply reply_greeting. unfold greetings; simpl.
    apply contains_lower in H. change (lower (lit "hi")) with (lit "hi") in H.
    change (lit "hi") with ["h"; "i"]%char in H. rewrite H. reflexivity.
  - apply reply_greeting. reflexivity.
  - discriminate.
Qed.

Lemma chatbot_reply_hi_shadows_lookup_witness :
  chatbot_reply silent_search silent_summary QA_KB (lit "history of this")
                start
  = (Return GREETING, start).
Proof.
  apply (chatbot_reply_hi_shadows_lookup
           unit silent_search silent_summary QA_KB (lit "history of this")
           start).
  reflexivity.
Defined.

(** ** difflib: what [find_longest_match] returns *)

Section SequenceMatcherFacts.

Variable A : Type.
Variable eqb : A -> A -> bool.
Hypothesis eqb_eq : forall x y, eqb x y = true <-> x = y.

Lemma matches_at_0 (a b : list A) (i j : nat) : matches_at a b i j 0.
Proof. intros t Ht; lia. Qed.

Lemma matches_at_snoc (a b : list A) (i j k : nat) (x : A) :
  matches_at a b i j k ->
  nth_error a (i + k) = Some x -> nth_error b (j + k) = Some x ->
  matches_at a b i j (S k).
Proof.
  intros H Ha Hb t Ht. destruct (Nat.eq_dec t k) as [-> | Hne].
  - exists x; auto.
  - apply H; lia.
Qed.

Lemma matches_at_cons (a b : list A) (i j k : nat) (x : A) :
  matches_at a b (S i) (S j) k ->
  nth_error a i = Some x -> nth_error b j = Some x ->
  matches_at a b i j (S k).
Proof.
  intros H Ha Hb [|t] Ht.
  - rewrite !Nat.add_0_r. exists x; auto.
  - destruct (H t ltac:(lia)) as [y [Hy1 Hy2]]. exists y.
    rewrite <- !plus_n_Sm. simpl in Hy1, Hy2. auto.
Qed.

Lemma matches_at_app (a b : list A) (i j k1 k2 : nat) :
  matches_at a b i j k1 -> matches_at a b (i + k1) (j + k1) k2 ->
  matches_at a b i j (k1 + k2).
Proof.
  intros H1 H2 t Ht. destruct (Nat.lt_ge_cases t k1) as [Hlt | Hge].
  - apply H1; exact Hlt.
  - destruct (H2 (t - k1) ltac:(lia)) as [x [Hx1 Hx2]]. exists x.
    replace (i + t) with (i + k1 + (t - k1)) by lia.
    replace (j + t) with (j + k1 + (t - k1)) by lia. auto.
Qed.

Lemma same_at_true (a b : list A) (i j : nat) :
  same_at eqb a b i j = true ->
  exists x, nth_error a i = Some x /\ nth_error b j = Some x.
Proof.
  unfold same_at. destruct (nth_error a i) as [x|]; [|discriminate].
  destruct (nth_error b j) as [y|]; [|discriminate].
  intros H; apply eqb_eq in H; subst y. exists x; auto.
Qed.

Lemma indices_from_In (elt : A) (b : list A) (start j : nat) :
  In j (indices_from eqb start elt b) <->
  start <= j /\ nth_error b (j - start) = Some elt.
Proof.
  revert start; induction b as [|x b IH]; intros start; simpl.
  - split; [tauto | intros [_ H]]. destruct (j - start); discriminate.
  - assert (Hrec : In j (indices_from eqb (S start) elt b) <->
                   start <= j /\ nth_error (x :: b) (j - start) = Some elt
                   /\ j <> start).
    { rewrite IH. split.
      - intros [Hle Hn]. replace (j - start) with (S (j - S start)) by lia.
        simpl. repeat split; auto; lia.
      - intros [Hle [Hn Hne]].
        replace (j - start) with (S (j - S start)) in Hn by lia.
        simpl in Hn. split; auto; lia. }
    destruct (eqb x elt) eqn:E.
    + apply eqb_eq in E; subst x. simpl. rewrite Hrec. split.
      * intros [<- | [Hle [Hn _]]]; [rewrite Nat.sub_diag; simpl; auto | auto].
      * intros [Hle Hn]. destruct (Nat.eq_dec start j); [left; auto|].
        right; repeat split; auto.
    + rewrite Hrec. split; [tauto|]. intros [Hle Hn]. repeat split; auto.
      intros ->. rewrite Nat.sub_diag in Hn. simpl in Hn.
      injection Hn as ->. assert (eqb elt elt = true) by (apply eqb_eq; auto).
      congruence.
Qed.

Lemma b2j_In (b : list A) (elt : A) (j : nat) :
  In j (b2j eqb b elt) -> nth_error b j = Some elt.
Proof.
  unfold b2j.
  destruct ((200 <=? length b)
            && (length b / 100 + 1 <? length (indices_from eqb 0 elt b)));
    [intros [] |].
  rewrite indices_from_In, Nat.sub_0_r. tauto.
Qed.

Lemma flm_row_sound (a b : list A) (alo ahi blo bhi i : nat) (x : A)
      (j2len : nat -> nat) :
  alo <= i -> i < ahi -> nth_error a i = Some x ->
  row_inv a b alo blo bhi i j2len ->
  forall js newj2len best,
    (forall j, In j js -> nth_error b j = Some x) ->
    row_inv a b alo blo bhi (i + 1) newj2len ->
    valid_block a b alo ahi blo bhi best ->
    row_inv a b alo blo bhi (i + 1)
            (fst (flm_row js i blo bhi j2len newj2len best)) /\
    valid_block a b alo ahi blo bhi
                (snd (flm_row js i blo bhi j2len newj2len best)).
Proof.
  intros Hlo Hhi Ha Hprev.
  induction js as [|j js IH]; intros newj2len best Hjs Hnew Hbest; simpl.
  - auto.
  - assert (Hjs' : forall j', In j' js -> nth_error b j' = Some x)
      by (intros; apply Hjs; right; auto).
    destruct (j <? blo) eqn:E1; [apply IH; auto|].
    destruct (bhi <=? j) eqn:E2; [simpl; auto|].
    apply Nat.ltb_ge in E1. apply Nat.leb_gt in E2.
    assert (Hb : nth_error b j = Some x) by (apply Hjs; left; auto).
    assert (Hrun : exists si sj,
               si + (j2len_get_pred j2len j + 1) = i + 1 /\
               sj + (j2len_get_pred j2len j + 1) = j + 1 /\
               alo <= si /\ blo <= sj /\
               matches_at a b si sj (j2len_get_pred j2len j + 1)).
    { destruct j as [|j']; simpl.
      - exists i, 0. repeat split; try lia.
        apply matches_at_snoc with (x := x);
          [apply matches_at_0 | rewrite Nat.add_0_r; auto | auto].
      - destruct (Hprev j') as [H0 | [si [sj [H1 [H2 [H3 [H4 [H5 H6]]]]]]]].
        + rewrite H0. exists i, (S j'). repeat split; try lia.
          apply matches_at_snoc with (x := x);
            [apply matches_at_0 | rewrite Nat.add_0_r; auto
             | rewrite Nat.add_0_r; auto].
        + exists si, sj. repeat split; try lia.
          rewrite Nat.add_1_r. apply matches_at_snoc with (x := x); auto.
          * replace (si + j2len j') with i by lia; auto.
          * replace (sj + j2len j') with (S j') by lia; auto. }
    destruct Hrun as [si [sj [H1 [H2 [H3 [H4 H5]]]]]].
    apply IH; auto.
    + intros j0. unfold j2len_set. destruct (j0 =? j) eqn:E.
      * apply Nat.eqb_eq in E; subst j0. right. exists si, sj.
        repeat split; auto.
      * apply Hnew.
    + destruct (block_size best <? j2len_get_pred j2len j + 1); auto.
      replace (i + 1 - (j2len_get_pred j2len j + 1)) with si by lia.
      replace (j + 1 - (j2len_get_pred j2len j + 1)) with sj by lia.
      simpl. repeat split; auto; lia.
Qed.

Lemma flm_rows_sound (a b : list A) (alo ahi blo bhi : nat) :
  forall rows i j2len best,
    rows = seq i (ahi - i) -> alo <= i ->
    row_inv a b alo blo bhi i j2len ->
    valid_block a b alo ahi blo bhi best ->
    valid_block a b alo ahi blo bhi (flm_rows eqb rows a b blo bhi j2len best).
Proof.
  induction rows as [|r rows IH]; intros i j2len best Hrows Hlo Hinv Hbest;
    simpl; auto.
  destruct (ahi - i) as [|n] eqn:En; [discriminate|].
  simpl in Hrows. injection Hrows as -> ->.
  assert (Hempty : row_inv a b alo blo bhi (i + 1) (fun _ => 0))
    by (intros j; left; reflexivity).
  destruct (nth_error a i) as [x|] eqn:Ha.
  - destruct (flm_row_sound a b alo ahi blo bhi i x j2len
                            ltac:(lia) ltac:(lia) Ha Hinv
                            (b2j eqb b x) (fun _ => 0) best
                            (fun j => b2j_In b x j) Hempty Hbest)
      as [Hrow Hblk].
    destruct (flm_row (b2j eqb b x) i blo bhi j2len (fun _ => 0) best)
      as [newj2len best'].
    simpl in Hrow, Hblk.
    apply (IH (S i)); auto; try lia.
    + f_equal; lia.
    + rewrite <- Nat.add_1_r; auto.
  - simpl. apply (IH (S i)); auto; try lia.
    + f_equal; lia.
    + rewrite <- Nat.add_1_r; auto.
Qed.

Lemma extend_left_sound (junk : bool) (a b : list A) (alo ahi blo bhi : nat) :
  forall besti bestj bestsize,
    valid_block a b alo ahi blo bhi (besti, bestj, bestsize) ->
    valid_block a b alo ahi blo bhi
                (extend_left eqb junk a b alo blo besti bestj bestsize).
Proof.
  induction besti as [|i' IH]; intros bestj bestsize H; simpl; auto.
  destruct bestj as [|j']; auto.
  destruct ((alo <? S i') && (blo <? S j')
            && Bool.eqb (junk_at b j') junk && same_at eqb a b i' j') eqn:E;
    auto.
  rewrite !andb_true_iff in E. destruct E as [[[E1 E2] _] E3].
  apply Nat.ltb_lt in E1, E2. apply same_at_true in E3.
  destruct E3 as [x [Hx1 Hx2]]. destruct H as [H1 [H2 [H3 [H4 H5]]]].
  apply IH. simpl. repeat split; try lia.
  apply matches_at_cons with (x := x); auto.
Qed.

Lemma extend_right_sound (junk : bool) (a b : list A) (alo ahi blo bhi : nat) :
  forall gap besti bestj bestsize,
    valid_block a b alo ahi blo bhi (besti, bestj, bestsize) ->
    valid_block a b alo ahi blo bhi
                (extend_right eqb gap junk a b ahi bhi besti bestj bestsize).
Proof.
  induction gap as [|gap IH]; intros besti bestj bestsize H; simpl; auto.
  destruct ((besti + bestsize <? ahi) && (bestj + bestsize <? bhi)
            && Bool.eqb (junk_at b (bestj + bestsize)) junk
            && same_at eqb a b (besti + bestsize) (bestj + bestsize)) eqn:E;
    auto.
  rewrite !andb_true_iff in E. destruct E as [[[E1 E2] _] E3].
  apply Nat.ltb_lt in E1, E2. apply same_at_true in E3.
  destruct E3 as [x [Hx1 Hx2]]. destruct H as [H1 [H2 [H3 [H4 H5]]]].
  apply IH. simpl. repeat split; try lia.
  apply matches_at_snoc with (x := x); auto.
Qed.

(** The block [find_longest_match] returns lies inside the two ranges
    and its two sides are equal. *)
Lemma find_longest_match_sound (a b : list A) (alo ahi blo bhi : nat) :
  alo <= ahi -> blo <= bhi ->
  valid_block a b alo ahi blo bhi (find_longest_match eqb a b alo ahi blo bhi).
Proof.
  intros Ha Hb. unfold find_longest_match.
  assert (H0 : valid_block a b alo ahi blo bhi
                 (flm_rows eqb (seq alo (ahi - alo)) a b blo bhi
                           (fun _ => 0) (alo, blo, 0))).
  { apply flm_rows_sound with (i := alo); auto.
    - intros j; left; reflexivity.
    - simpl. repeat split; try lia. apply matches_at_0. }
  destruct (flm_rows eqb (seq alo (ahi - alo)) a b blo bhi
                     (fun _ => 0) (alo, blo, 0)) as [[i0 j0] k0].
  apply (extend_left_sound false) in H0.
  destruct (extend_left eqb false a b alo blo i0 j0 k0) as [[i1 j1] k1].
  apply (extend_right_sound false a b alo ahi blo bhi
                            (ahi - (i1 + k1))) in H0.
  destruct (extend_right eqb (ahi - (i1 + k1)) false a b ahi bhi i1 j1 k1)
    as [[i2 j2] k2].
  apply (extend_left_sound true) in H0.
  destruct (extend_left eqb true a b alo blo i2 j2 k2) as [[i3 j3] k3].
  apply (extend_right_sound true a b alo ahi blo bhi
                            (ahi - (i3 + k3))) in H0.
  destruct (extend_right eqb (ahi - (i3 + k3)) true a b ahi bhi i3 j3 k3)
    as [[i4 j4] k4].
  exact H0.
Qed.

End SequenceMatcherFacts.

(** ** difflib: the total size of the matching blocks *)

Section MatchingBlocksFacts.

Variable A : Type.
Variable eqb : A -> A -> bool.
Hypothesis eqb_eq : forall x y, eqb x y = true <-> x = y.

Lemma sum_sizes_app (l1 l2 : list block) :
  sum_sizes (l1 ++ l2) = sum_sizes l1 + sum_sizes l2.
Proof.
  induction l1 as [|x l1 IH]; simpl; [reflexivity|]. rewrite IH; lia.
Qed.

Lemma empty_ranges_aligned (a b : list A) (q : list range) :
  sum_a q = 0 -> sum_b q = 0 -> Forall (aligned a b) q.
Proof.
  induction q as [|[[[alo ahi] blo] bhi] q IH]; simpl; intros Ha Hb;
    constructor.
  - simpl. split; [lia|]. replace (ahi - alo) with 0 by lia.
    apply matches_at_0.
  - apply IH; lia.
Qed.

Lemma blocks_loop_sound (a b : list A) :
  forall fuel q acc,
    Forall range_ok q ->
    exists g,
      sum_sizes (blocks_loop eqb fuel a b q acc) = sum_sizes acc + g /\
      g <= sum_a q /\ g <= sum_b q /\
      (g = sum_a q -> g = sum_b q -> Forall (aligned a b) q).
Proof.
  induction fuel as [|fuel IH]; intros q acc Hq; simpl.
  - exists 0. repeat split; try lia.
    intros; apply empty_ranges_aligned; lia.
  - destruct q as [|[[[alo ahi] blo] bhi] rest].
    + exists 0. repeat split; try lia. constructor.
    + inversion Hq as [|r0 q0 Hr Hrest]; subst. destruct Hr as [Hra Hrb].
      pose proof (find_longest_match_sound A eqb eqb_eq a b alo ahi blo bhi
                                           Hra Hrb) as Hv.
      destruct (find_longest_match eqb a b alo ahi blo bhi) as [[i j] k].
      destruct Hv as [V1 [V2 [V3 [V4 V5]]]].
      destruct (k =? 0) eqn:Ek.
      * apply Nat.eqb_eq in Ek; subst k.
        destruct (IH rest acc Hrest) as [g [G1 [G2 [G3 G4]]]].
        exists g. simpl. repeat split; try lia.
        intros E1 E2. constructor.
        -- simpl. split; [lia|]. replace (ahi - alo) with 0 by lia.
           apply matches_at_0.
        -- apply G4; lia.
      * apply Nat.eqb_neq in Ek.
        set (q1 := if (alo <? i) && (blo <? j) then (alo, i, blo, j) :: rest
                   else rest).
        set (q2 := if (i + k <? ahi) && (j + k <? bhi)
                   then (i + k, ahi, j + k, bhi) :: q1 else q1).
        assert (Hq2 : Forall range_ok q2).
        { subst q2 q1.
          destruct ((alo <? i) && (blo <? j)),
                   ((i + k <? ahi) && (j + k <? bhi));
            repeat constructor; auto; simpl; lia. }
        destruct (IH q2 (acc ++ [(i, j, k)]) Hq2) as [g [G1 [G2 [G3 G4]]]].
        exists (k + g). rewrite G1, sum_sizes_app. simpl.
        unfold block_size; simpl.
        assert (Sa : sum_a q2 + k <= (ahi - alo) + sum_a rest /\
                     sum_b q2 + k <= (bhi - blo) + sum_b rest).
        { subst q2 q1.
          destruct ((alo <? i) && (blo <? j)),
                   ((i + k <? ahi) && (j + k <? bhi)); simpl; lia. }
        repeat split; try lia.
        intros E1 E2.
        assert (Hal : Forall (aligned a b) q2) by (apply G4; lia).
        assert (Ta : sum_a q2 + k = (ahi - alo) + sum_a rest) by lia.
        assert (Tb : sum_b q2 + k = (bhi - blo) + sum_b rest) by lia.
        clear G1 G2 G3 G4 E1 E2 Sa IH.
        assert (Hparts :
                  (i - alo = j - blo /\ matches_at a b alo blo (i - alo)) /\
                  (ahi - (i + k) = bhi - (j + k) /\
                   matches_at a b (i + k) (j + k) (ahi - (i + k))) /\
                  Forall (aligned a b) rest).
        { subst q2 q1.
          destruct ((alo <? i) && (blo <? j)) eqn:EL,
                   ((i + k <? ahi) && (j + k <? bhi)) eqn:ER;
            simpl in Ta, Tb;
            repeat match goal with
                   | H : Forall _ (_ :: _) |- _ => inversion H; clear H; subst
                   end;
            repeat match goal with
                   | H : aligned _ _ (_, _, _, _) |- _ => destruct H
                   end;
            repeat split; auto; try lia;
              try (replace (i - alo) with 0 by lia; apply matches_at_0);
              try (replace (ahi - (i + k)) with 0 by lia; apply matches_at_0). }
        destruct Hparts as [[L1 L2] [[R1 R2] Hrest']].
        constructor; auto. simpl. split; [lia|].
        replace (ahi - alo) with ((i - alo) + (k + (ahi - (i + k)))) by lia.
        apply matches_at_app; auto.
        replace (alo + (i - alo)) with i by lia.
        replace (blo + (i - alo)) with j by lia.
        apply matches_at_app; auto.
Qed.

Lemma sum_sizes_block_insert (x : block) (l : list block) :
  sum_sizes (block_insert x l) = block_size x + sum_sizes l.
Proof.
  induction l as [|y l IH]; simpl; [reflexivity|].
  destruct (block_ltb y x); simpl; [rewrite IH|]; lia.
Qed.

Lemma sum_sizes_block_sort (l : list block) :
  sum_sizes (block_sort l) = sum_sizes l.
Proof.
  induction l as [|x l IH]; simpl; [reflexivity|].
  rewrite sum_sizes_block_insert, IH; reflexivity.
Qed.

Lemma sum_sizes_collapse_adjacent (l : list block) :
  forall cur, sum_sizes (collapse_adjacent cur l) = block_size cur + sum_sizes l.
Proof.
  induction l as [|[[i2 j2] k2] l IH]; intros [[i1 j1] k1]; simpl.
  - unfold block_size; simpl. destruct (k1 =? 0) eqn:E; simpl; [|lia].
    apply Nat.eqb_eq in E; lia.
  - destruct ((i1 + k1 =? i2) && (j1 + k1 =? j2)).
    + rewrite IH. unfold block_size; simpl. lia.
    + rewrite sum_sizes_app, IH. unfold block_size; simpl.
      destruct (k1 =? 0) eqn:E; simpl; [|lia].
      apply Nat.eqb_eq in E; lia.
Qed.

(** Sorting, merging and the sentinel do not change the total. *)
Lemma sum_sizes_get_matching_blocks (a b : list A) :
  sum_sizes (get_matching_blocks eqb a b)
  = sum_sizes (blocks_loop eqb (2 * length a + 1) a b
                           [(0, length a, 0, length b)] []).
Proof.
  unfold get_matching_blocks.
  rewrite sum_sizes_app, sum_sizes_collapse_adjacent, sum_sizes_block_sort.
  unfold block_size; simpl. lia.
Qed.

Lemma matches_at_whole (a b : list A) :
  length a = length b -> matches_at a b 0 0 (length a) -> a = b.
Proof.
  revert b; induction a as [|x a IH]; intros [|y b] Hlen H;
    try discriminate; auto.
  simpl in Hlen. f_equal.
  - destruct (H 0 ltac:(simpl; lia)) as [z [H1 H2]]. simpl in H1, H2.
    congruence.
  - apply IH; [lia|]. intros t Ht.
    destruct (H (S t) ltac:(simpl; lia)) as [z [H1 H2]]. simpl in H1, H2.
    exists z; auto.
Qed.

(** The number of matched elements is at most the length of either
    sequence, and reaches both lengths only when the sequences are
    equal. *)
Lemma matched_total_sound (a b : list A) :
  let M := sum_sizes (get_matching_blocks eqb a b) in
  M <= length a /\ M <= length b /\
  (M = length a -> M = length b -> a = b).
Proof.
  simpl. rewrite sum_sizes_get_matching_blocks.
  destruct (blocks_loop_sound a b (2 * length a + 1)
                              [(0, length a, 0, length b)] [])
    as [g [G1 [G2 [G3 G4]]]].
  { repeat constructor; lia. }
  rewrite G1. simpl in *. repeat split; try lia.
  intros E1 E2.
  assert (H : Forall (aligned a b) [(0, length a, 0, length b)])
    by (apply G4; lia).
  inversion H as [|r q Hal _]; subst. simpl in Hal. destruct Hal as [Hw Hm].
  rewrite Nat.sub_0_r in Hm. apply matches_at_whole; [lia | exact Hm].
Qed.

(** The loop empties its queue within [work q] iterations: more fuel
    does not change its result. *)
Lemma blocks_loop_fuel (a b : list A) :
  forall fuel q acc extra,
    Forall range_ok q -> work q <= fuel ->
    blocks_loop eqb (fuel + extra) a b q acc = blocks_loop eqb fuel a b q acc.
Proof.
  induction fuel as [|fuel IH]; intros q acc extra Hq Hw.
  - destruct q as [|[[[alo ahi] blo] bhi] rest]; [|simpl in Hw; lia].
    destruct extra; reflexivity.
  - destruct q as [|[[[alo ahi] blo] bhi] rest]; [reflexivity|].
    inversion Hq as [|r0 q0 Hr Hrest]; subst. destruct Hr as [Hra Hrb].
    simpl in Hw. simpl.
    pose proof (find_longest_match_sound A eqb eqb_eq a b alo ahi blo bhi
                                         Hra Hrb) as Hv.
    destruct (find_longest_match eqb a b alo ahi blo bhi) as [[i j] k].
    destruct Hv as [V1 [V2 [V3 [V4 V5]]]].
    destruct (k =? 0) eqn:Ek; [apply IH; [assumption | lia]|].
    apply Nat.eqb_neq in Ek.
    apply IH.
    + destruct ((alo <? i) && (blo <? j)),
               ((i + k <? ahi) && (j + k <? bhi));
        repeat constructor; auto; simpl; lia.
    + destruct ((alo <? i) && (blo <? j)),
               ((i + k <? ahi) && (j + k <? bhi)); simpl; lia.
Qed.

(** The fuel [get_matching_blocks] gives the loop is enough. *)
Lemma get_matching_blocks_fuel (a b : list A) (extra : nat) :
  blocks_loop eqb (2 * length a + 1 + extra) a b
              [(0, length a, 0, length b)] []
  = blocks_loop eqb (2 * length a + 1) a b [(0, length a, 0, length b)] [].
Proof.
  apply blocks_loop_fuel.
  - repeat constructor; lia.
  - simpl; lia.
Qed.

End MatchingBlocksFacts.

(** ** difflib: a sequence compared with itself *)

Section IdenticalSequences.

Variable A : Type.
Variable eqb : A -> A -> bool.
Hypothesis eqb_eq : forall x y, eqb x y = true <-> x = y.

Variable a : list A.

Local Abbreviation kept_a := (kept eqb a).
Local Abbreviation diag_a := (diag eqb a).
Local Abbreviation pdiag_a := (pdiag eqb a).

Lemma diag_pdiag (i : nat) : diag_a i = if kept_a i then S (pdiag_a i) else 0.
Proof. destruct i; simpl; destruct (kept_a _); reflexivity. Qed.

Lemma diag_le (i : nat) : diag_a i <= i + 1.
Proof.
  induction i as [|i IH]; simpl.
  - destruct (kept_a 0); lia.
  - destruct (kept_a (S i)); lia.
Qed.

Lemma eqb_refl (x : A) : eqb x x = true.
Proof. apply eqb_eq; reflexivity. Qed.

Lemma kept_of_b2j (x : A) (j : nat) : In j (b2j eqb a x) -> kept_a j = true.
Proof.
  intros H. unfold kept. rewrite (b2j_In A eqb eqb_eq a x j H).
  destruct (b2j eqb a x); [destruct H | reflexivity].
Qed.

Lemma b2j_of_kept (x : A) (i : nat) :
  nth_error a i = Some x -> kept_a i = true -> In i (b2j eqb a x).
Proof.
  intros Hx. unfold kept. rewrite Hx. unfold b2j.
  destruct ((200 <=? length a)
            && (length a / 100 + 1 <? length (indices_from eqb 0 x a)));
    [discriminate|].
  intros _. apply (indices_from_In A eqb eqb_eq). rewrite Nat.sub_0_r.
  split; [lia | exact Hx].
Qed.

Lemma b2j_not_kept (x : A) (i : nat) :
  nth_error a i = Some x -> kept_a i = false -> b2j eqb a x = [].
Proof.
  intros Hx. unfold kept. rewrite Hx.
  destruct (b2j eqb a x); [reflexivity | discriminate].
Qed.

Lemma indices_from_sorted (x : A) (b : list A) :
  forall start, StronglySorted lt (indices_from eqb start x b).
Proof.
  induction b as [|y b IH]; intros start; simpl; [constructor|].
  destruct (eqb y x); [|apply IH].
  constructor; [apply IH|]. apply Forall_forall. intros j Hj.
  apply (indices_from_In A eqb eqb_eq) in Hj. lia.
Qed.

Lemma b2j_sorted (x : A) : StronglySorted lt (b2j eqb a x).
Proof.
  unfold b2j.
  destruct ((200 <=? length a)
            && (length a / 100 + 1 <? length (indices_from eqb 0 x a)));
    [constructor | apply indices_from_sorted].
Qed.

Lemma b2j_lt (x : A) (j : nat) : In j (b2j eqb a x) -> j < length a.
Proof.
  intros H. apply (b2j_In A eqb eqb_eq) in H.
  apply nth_error_Some. congruence.
Qed.

(** The entries of the new row do not depend on [best]. *)
Lemma flm_row_map (i blo bhi : nat) (m : nat -> nat) :
  forall js newm best,
    (forall j, In j js -> blo <= j < bhi) ->
    forall j,
      fst (flm_row js i blo bhi m newm best) j
      = if in_dec Nat.eq_dec j js then j2len_get_pred m j + 1 else newm j.
Proof.
  induction js as [|j0 js IH]; intros newm best Hjs j; simpl; [reflexivity|].
  assert (H0 : blo <= j0 < bhi) by (apply Hjs; left; reflexivity).
  replace (j0 <? blo) with false by (symmetry; apply Nat.ltb_ge; lia).
  replace (bhi <=? j0) with false by (symmetry; apply Nat.leb_gt; lia).
  rewrite IH by (intros; apply Hjs; right; assumption).
  destruct (Nat.eq_dec j0 j) as [-> | Hne].
  - destruct (in_dec Nat.eq_dec j js); [reflexivity|].
    unfold j2len_set. rewrite Nat.eqb_refl. reflexivity.
  - destruct (in_dec Nat.eq_dec j js); [reflexivity|].
    unfold j2len_set. replace (j =? j0) with false; [reflexivity|].
    symmetry; apply Nat.eqb_neq; auto.
Qed.

(** On a row of a sequence compared with itself, [best] stays on the
    diagonal: a longer match is first met there. *)
Lemma flm_row_diag (i : nat) (m : nat -> nat) :
  forall js newm d s,
    StronglySorted lt js ->
    (forall j, In j js -> j < length a) ->
    (forall j, In j js -> j2len_get_pred m j + 1 <= diag_a i /\
                          j2len_get_pred m j + 1 <= diag_a j) ->
    (In i js -> j2len_get_pred m i + 1 = diag_a i) ->
    (forall j, In j js -> j < i -> diag_a j <= s) ->
    (In i js \/ diag_a i <= s) ->
    d + s <= i + 1 ->
    exists d' s',
      snd (flm_row js i 0 (length a) m newm (d, d, s)) = (d', d', s') /\
      d' + s' <= i + 1 /\ s <= s' /\ diag_a i <= s'.
Proof.
  induction js as [|j js IH]; intros newm d s Hsort Hlt Hk Hki Hlow Hi Hds;
    simpl.
  - exists d, s. destruct Hi as [[] | Hi]. repeat split; auto.
  - inversion Hsort as [|j' js' Hsort' Hall]; subst.
    rewrite Forall_forall in Hall.
    assert (Hj : j < length a) by (apply Hlt; left; reflexivity).
    replace (length a <=? j) with false by (symmetry; apply Nat.leb_gt; lia).
    destruct (Hk j (or_introl eq_refl)) as [Hk1 Hk2].
    unfold block_size; simpl.
    assert (Hlt' : forall j0, In j0 js -> j0 < length a)
      by (intros; apply Hlt; right; assumption).
    assert (Hk' : forall j0, In j0 js ->
                             j2len_get_pred m j0 + 1 <= diag_a i /\
                             j2len_get_pred m j0 + 1 <= diag_a j0)
      by (intros; apply Hk; right; assumption).
    assert (Hki' : In i js -> j2len_get_pred m i + 1 = diag_a i)
      by (intros; apply Hki; right; assumption).
    destruct (Nat.lt_trichotomy j i) as [Hji | [Hji | Hji]].
    + replace (s <? j2len_get_pred m j + 1) with false.
      * assert (Hlow' : forall j0, In j0 js -> j0 < i -> diag_a j0 <= s)
          by (intros; apply Hlow; auto; right; assumption).
        assert (Hi' : In i js \/ diag_a i <= s)
          by (destruct Hi as [[Hi | Hi] | Hi]; auto; lia).
        exact (IH _ d s Hsort' Hlt' Hk' Hki' Hlow' Hi' Hds).
      * symmetry; apply Nat.ltb_ge.
        pose proof (Hlow j (or_introl eq_refl) Hji). lia.
    + subst j. pose proof (Hki (or_introl eq_refl)) as Hkd.
      pose proof (diag_le i) as Hdi.
      destruct (s <? j2len_get_pred m i + 1) eqn:E.
      * apply Nat.ltb_lt in E.
        assert (Hlow' : forall j0, In j0 js -> j0 < i ->
                                   diag_a j0 <= j2len_get_pred m i + 1)
          by (intros j0 Hin Hj0; pose proof (Hall j0 Hin); lia).
        assert (Hi' : In i js \/ diag_a i <= j2len_get_pred m i + 1)
          by (right; lia).
        assert (Hds' : i + 1 - (j2len_get_pred m i + 1)
                       + (j2len_get_pred m i + 1) <= i + 1) by lia.
        destruct (IH (j2len_set newm i (j2len_get_pred m i + 1))
                     (i + 1 - (j2len_get_pred m i + 1))
                     (j2len_get_pred m i + 1)
                     Hsort' Hlt' Hk' Hki' Hlow' Hi' Hds')
          as [d' [s' [H1 [H2 [H3 H4]]]]].
        exists d', s'. repeat split; auto; lia.
      * apply Nat.ltb_ge in E.
        assert (Hlow' : forall j0, In j0 js -> j0 < i -> diag_a j0 <= s)
          by (intros j0 Hin Hj0; pose proof (Hall j0 Hin); lia).
        assert (Hi' : In i js \/ diag_a i <= s) by (right; lia).
        exact (IH _ d s Hsort' Hlt' Hk' Hki' Hlow' Hi' Hds).
    + assert (Hnot : ~ In i (j :: js)).
      { intros [Heq | Hin]; [lia|]. pose proof (Hall i Hin). lia. }
      destruct Hi as [Hi | Hi]; [contradiction|].
      replace (s <? j2len_get_pred m j + 1) with false
        by (symmetry; apply Nat.ltb_ge; lia).
      assert (Hlow' : forall j0, In j0 js -> j0 < i -> diag_a j0 <= s)
        by (intros; apply Hlow; auto; right; assumption).
      exact (IH _ d s Hsort' Hlt' Hk' Hki' Hlow' (or_intror Hi) Hds).
Qed.

Lemma flm_rows_diag :
  forall rows i m d s,
    rows = seq i (length a - i) -> i <= length a ->
    (forall j, j2len_get_pred m j <= pdiag_a i /\ j2len_get_pred m j <= pdiag_a j) ->
    j2len_get_pred m i = pdiag_a i ->
    d + s <= i ->
    (forall i', i' < i -> diag_a i' <= s) ->
    exists d' s',
      flm_rows eqb rows a a 0 (length a) m (d, d, s) = (d', d', s') /\
      d' + s' <= length a.
Proof.
  induction rows as [|r rows IH]; intros i m d s Hrows Hi Ha He Hds Hs; simpl.
  - exists d, s. split; [reflexivity | lia].
  - destruct (length a - i) as [|n] eqn:En; [discriminate|].
    simpl in Hrows. injection Hrows as -> ->.
    destruct (nth_error a i) as [x|] eqn:Hx;
      [|apply nth_error_None in Hx; lia].
    assert (Hkept : forall j, In j (b2j eqb a x) -> kept_a i = true /\ kept_a j = true).
    { intros j Hj. split; [|apply (kept_of_b2j x j Hj)].
      unfold kept. rewrite Hx. destruct (b2j eqb a x); [destruct Hj | auto]. }
    assert (Hstep : forall j, In j (b2j eqb a x) ->
                              j2len_get_pred m j + 1 <= diag_a i /\
                              j2len_get_pred m j + 1 <= diag_a j).
    { intros j Hj. destruct (Hkept j Hj) as [K1 K2].
      rewrite (diag_pdiag i), (diag_pdiag j), K1, K2.
      destruct (Ha j). lia. }
    assert (Hdiag : In i (b2j eqb a x) -> j2len_get_pred m i + 1 = diag_a i).
    { intros Hin. destruct (Hkept i Hin) as [K1 _].
      rewrite (diag_pdiag i), K1. lia. }
    destruct (flm_row_diag i m (b2j eqb a x) (fun _ => 0) d s)
      as [d' [s' [H1 [H2 [H3 H4]]]]]; auto.
    + apply b2j_sorted.
    + apply b2j_lt.
    + destruct (kept_a i) eqn:K.
      * left; apply b2j_of_kept; auto.
      * right. rewrite diag_pdiag, K. lia.
    + lia.
    + pose proof (flm_row_map i 0 (length a) m (b2j eqb a x) (fun _ => 0)
                              (d, d, s)) as Hmap.
      destruct (flm_row (b2j eqb a x) i 0 (length a) m (fun _ => 0) (d, d, s))
        as [newm best'].
      simpl in H1, Hmap. subst best'.
      assert (Hnew : forall j,
                 newm j = if in_dec Nat.eq_dec j (b2j eqb a x)
                          then j2len_get_pred m j + 1 else 0).
      { apply Hmap. intros j Hj. pose proof (b2j_lt x j Hj). lia. }
      apply (IH (S i)); auto; try lia.
      * f_equal; lia.
      * intros [|j']; simpl; [lia|]. rewrite Hnew.
        destruct (in_dec Nat.eq_dec j' (b2j eqb a x)) as [Hin|]; [|lia].
        destruct (Hstep j' Hin). lia.
      * simpl. rewrite Hnew.
        destruct (in_dec Nat.eq_dec i (b2j eqb a x)) as [Hin | Hnin];
          [apply Hdiag; auto|].
        rewrite diag_pdiag. destruct (kept_a i) eqn:K; [|reflexivity].
        exfalso; apply Hnin; apply b2j_of_kept; auto.
      * intros i' Hi'. destruct (Nat.eq_dec i' i) as [-> |]; [auto|].
        pose proof (Hs i' ltac:(lia)). lia.
Qed.

Lemma same_at_refl (i : nat) : i < length a -> same_at eqb a a i i = true.
Proof.
  intros H. unfold same_at.
  destruct (nth_error a i) eqn:E; [apply eqb_refl|].
  apply nth_error_None in E; lia.
Qed.

Lemma extend_left_same :
  forall d s, d <= length a ->
              extend_left eqb false a a 0 0 d d s = (0, 0, d + s).
Proof.
  induction d as [|d IH]; intros s Hd; simpl; [reflexivity|].
  rewrite same_at_refl by lia. unfold junk_at, isbjunk.
  destruct (nth_error a d); simpl; rewrite IH by lia; f_equal; lia.
Qed.

Lemma extend_right_same :
  forall gap s, s + gap = length a ->
                extend_right eqb gap false a a (length a) (length a) 0 0 s
                = (0, 0, length a).
Proof.
  induction gap as [|gap IH]; intros s Hs; simpl.
  - f_equal; lia.
  - replace (s <? length a) with true by (symmetry; apply Nat.ltb_lt; lia).
    rewrite same_at_refl by lia. unfold junk_at, isbjunk.
    destruct (nth_error a s); simpl; apply IH; lia.
Qed.

(** The longest match of a sequence with itself is the whole sequence. *)
Lemma find_longest_match_same :
  find_longest_match eqb a a 0 (length a) 0 (length a) = (0, 0, length a).
Proof.
  unfold find_longest_match.
  assert (Hrow : forall j, j2len_get_pred (fun _ => 0) j <= pdiag_a 0 /\
                           j2len_get_pred (fun _ => 0) j <= pdiag_a j)
    by (intros j; destruct j; simpl; lia).
  assert (Hnone : forall i', i' < 0 -> diag_a i' <= 0) by (intros; lia).
  destruct (flm_rows_diag (seq 0 (length a - 0)) 0 (fun _ => 0) 0 0
                          eq_refl (Nat.le_0_l _) Hrow eq_refl (Nat.le_0_l _)
                          Hnone)
    as [d [s [H1 H2]]].
  rewrite H1. rewrite extend_left_same by lia.
  rewrite extend_right_same by lia. simpl.
  replace (length a - length a) with 0 by lia. reflexivity.
Qed.

Lemma get_matching_blocks_same :
  sum_sizes (get_matching_blocks eqb a a) = length a.
Proof.
  rewrite sum_sizes_get_matching_blocks.
  replace (2 * length a + 1) with (S (2 * length a)) by lia.
  simpl. rewrite find_longest_match_same.
  destruct (length a =? 0) eqn:E.
  - apply Nat.eqb_eq in E. destruct (length a + (length a + 0)); simpl; lia.
  - rewrite Nat.add_0_l, !Nat.ltb_irrefl. simpl.
    destruct (length a + (length a + 0)); simpl; unfold block_size; simpl; lia.
Qed.

End IdenticalSequences.

(** ** difflib: ratios *)

Lemma Zpos_of_nat (n : nat) : n <> 0 -> Zpos (Pos.of_nat n) = Z.of_nat n.
Proof.
  intros Hn. rewrite <- (Nat2Pos.id n Hn) at 2.
  symmetry; apply positive_nat_Z.
Qed.

Lemma calculate_ratio_whole (n : nat) : calculate_ratio n (n + n) = 1%Q.
Proof.
  unfold calculate_ratio. destruct (n + n =? 0) eqn:E; [reflexivity|].
  apply Nat.eqb_neq in E.
  change 1%Q with (Qred 1). apply Qred_complete.
  unfold Qeq; simpl Qnum; simpl Qden. rewrite Zpos_of_nat by exact E.
  rewrite Z.mul_1_r, Z.mul_1_l. f_equal; lia.
Qed.

Lemma calculate_ratio_part (m t : nat) :
  2 * m < t -> (calculate_ratio m t < 1)%Q.
Proof.
  intros H. unfold calculate_ratio.
  destruct (t =? 0) eqn:E; [apply Nat.eqb_eq in E; lia|].
  apply Nat.eqb_neq in E. rewrite Qred_correct.
  unfold Qlt; simpl Qnum; simpl Qden. rewrite Zpos_of_nat by exact E.
  rewrite Z.mul_1_r, Z.mul_1_l. apply Nat2Z.inj_lt. exact H.
Qed.

Section RatioFacts.

Variable A : Type.
Variable eqb : A -> A -> bool.
Variable ltb : A -> A -> bool.
Hypothesis eqb_eq : forall x y, eqb x y = true <-> x = y.
Hypothesis ltb_irrefl : forall x, ltb x x = false.

Lemma elt_eq_dec (u v : A) : {u = v} + {u <> v}.
Proof.
  destruct (eqb u v) eqn:E.
  - left; apply eqb_eq; exact E.
  - right; intros H; apply eqb_eq in H; congruence.
Qed.

Lemma ratio_same (a : list A) : ratio eqb a a = 1%Q.
Proof.
  unfold ratio. rewrite (get_matching_blocks_same A eqb eqb_eq).
  apply calculate_ratio_whole.
Qed.

Lemma ratio_other (a b : list A) : a <> b -> (ratio eqb a b < 1)%Q.
Proof.
  intros Hne. unfold ratio. apply calculate_ratio_part.
  destruct (matched_total_sound A eqb eqb_eq a b) as [H1 [H2 H3]].
  destruct (Nat.eq_dec (sum_sizes (get_matching_blocks eqb a b)) (length a))
    as [Ea|]; [|lia].
  destruct (Nat.eq_dec (sum_sizes (get_matching_blocks eqb a b)) (length b))
    as [Eb|]; [|lia].
  exfalso; apply Hne; apply H3; assumption.
Qed.

Lemma real_quick_ratio_same (a : list A) : real_quick_ratio a a = 1%Q.
Proof.
  unfold real_quick_ratio. rewrite Nat.min_id. apply calculate_ratio_whole.
Qed.

Lemma quick_loop_all (b : list A) :
  forall s avail m,
    (forall x, avail_val eqb b avail x = Z.of_nat (count_elt eqb x s)) ->
    quick_loop eqb s b avail m = m + length s.
Proof.
  induction s as [|elt s IH]; intros avail m Hav; simpl; [lia|].
  pose proof (Hav elt) as He. unfold avail_val in He. rewrite He.
  simpl count_elt. rewrite (proj2 (eqb_eq elt elt) eq_refl).
  replace (0 <? Z.of_nat (1 + count_elt eqb elt s))%Z with true
    by (symmetry; apply Z.ltb_lt; lia).
  rewrite IH; [lia|].
  intros x. unfold avail_val. destruct (eqb x elt) eqn:E.
  - apply eqb_eq in E; subst x. lia.
  - pose proof (Hav x) as Hx. unfold avail_val in Hx. rewrite Hx.
    simpl count_elt. replace (eqb elt x) with false; [reflexivity|].
    destruct (eqb elt x) eqn:E'; [|reflexivity].
    apply eqb_eq in E'; subst x.
    rewrite (proj2 (eqb_eq elt elt) eq_refl) in E. discriminate.
Qed.

Lemma quick_ratio_same (a : list A) : quick_ratio eqb a a = 1%Q.
Proof.
  unfold quick_ratio. rewrite quick_loop_all by reflexivity.
  apply calculate_ratio_whole.
Qed.

Lemma close_enough_same (word : list A) (cutoff : Q) :
  Qle_bool cutoff 1 = true -> close_enough eqb word cutoff word = true.
Proof.
  intros H. unfold close_enough.
  rewrite real_quick_ratio_same, quick_ratio_same, ratio_same, H.
  reflexivity.
Qed.

(** *** The order of scored candidates *)

Lemma seq_ltb_irrefl (x : list A) : seq_ltb eqb ltb x x = false.
Proof.
  induction x as [|c x IH]; simpl; [reflexivity|].
  rewrite ltb_irrefl, IH, andb_false_r. reflexivity.
Qed.

Lemma scored_ltb_irrefl (p : Q * list A) : scored_ltb eqb ltb p p = false.
Proof.
  unfold scored_ltb.
  rewrite (proj1 (Qeq_alt (fst p) (fst p)) (Qeq_refl _)).
  apply seq_ltb_irrefl.
Qed.

Lemma scored_insert_In (p q : Q * list A) (l : list (Q * list A)) :
  In q (scored_insert eqb ltb p l) <-> q = p \/ In q l.
Proof.
  induction l as [|r l IH]; simpl.
  - intuition.
  - destruct (scored_ltb eqb ltb p r); simpl; [rewrite IH|]; intuition.
Qed.

Lemma sorted_reverse_In (q : Q * list A) (l : list (Q * list A)) :
  In q (sorted_reverse eqb ltb l) <-> In q l.
Proof.
  induction l as [|p l IH]; simpl; [tauto|].
  rewrite scored_insert_In, IH. intuition.
Qed.

(** A candidate above all the others comes first. *)
Lemma sorted_reverse_head (top : Q * list A) (l : list (Q * list A)) :
  In top l ->
  (forall p, In p l -> p = top \/
                       (scored_ltb eqb ltb p top = true /\
                        scored_ltb eqb ltb top p = false)) ->
  exists tl, sorted_reverse eqb ltb l = top :: tl.
Proof.
  induction l as [|p l IH]; intros Hin Hall; [destruct Hin|].
  simpl.
  assert (Hall' : forall q, In q l ->
                            q = top \/
                            (scored_ltb eqb ltb q top = true /\
                             scored_ltb eqb ltb top q = false))
    by (intros; apply Hall; right; assumption).
  destruct (Hall p (or_introl eq_refl)) as [-> | [Hlt Hnlt]].
  - destruct (sorted_reverse eqb ltb l) as [|q tl] eqn:E; simpl; [eauto|].
    assert (Hq : In q l)
      by (apply sorted_reverse_In; rewrite E; left; reflexivity).
    destruct (Hall' q Hq) as [-> | [_ Hn]].
    + rewrite scored_ltb_irrefl. eauto.
    + rewrite Hn. eauto.
  - destruct Hin as [-> | Hin];
      [rewrite scored_ltb_irrefl in Hlt; discriminate|].
    destruct (IH Hin Hall') as [tl ->]. simpl. rewrite Hlt. eauto.
Qed.

(** *** get_close_matches *)

Lemma firstn_In (B : Type) (n : nat) (l : list B) (x : B) :
  In x (firstn n l) -> In x l.
Proof.
  intros H. rewrite <- (firstn_skipn n l). apply in_or_app; left; exact H.
Qed.

Lemma get_close_matches_returns
      (word : list A) (possibilities : list (list A)) (n : Z) (cutoff : Q) :
  (0 < n)%Z -> Qle_bool 0 cutoff = true -> Qle_bool cutoff 1 = true ->
  exists matches,
    get_close_matches eqb ltb word possibilities n cutoff = Return matches /\
    forall x, In x matches -> In x possibilities.
Proof.
  intros Hn H0 H1. unfold get_close_matches.
  replace (0 <? n)%Z with true by (symmetry; apply Z.ltb_lt; exact Hn).
  rewrite H0, H1. simpl. eexists; split; [reflexivity|].
  intros x Hx. apply in_map_iff in Hx. destruct Hx as [[sc y] [Hy Hin]].
  simpl in Hy; subst y. unfold nlargest in Hin. apply firstn_In in Hin.
  apply (proj1 (sorted_reverse_In _ _)) in Hin. apply in_map_iff in Hin.
  destruct Hin as [y [Hy Hin]]. injection Hy as _ ->.
  apply filter_In in Hin. tauto.
Qed.

Lemma get_close_matches_raises
      (word : list A) (possibilities : list (list A)) (n : Z) (cutoff : Q) :
  Qle_bool 0 cutoff && Qle_bool cutoff 1 = false ->
  get_close_matches eqb ltb word possibilities n cutoff = Raise ValueError.
Proof.
  intros H. unfold get_close_matches. rewrite H.
  destruct (0 <? n)%Z; reflexivity.
Qed.

(** A word that is among the candidates is their best match. *)
Lemma get_close_matches_exact
      (word : list A) (possibilities : list (list A)) (n : Z) (cutoff : Q) :
  (0 < n)%Z -> Qle_bool 0 cutoff = true -> Qle_bool cutoff 1 = true ->
  In word possibilities ->
  exists rest,
    get_close_matches eqb ltb word possibilities n cutoff
    = Return (word :: rest).
Proof.
  intros Hn H0 H1 Hin. unfold get_close_matches.
  replace (0 <? n)%Z with true by (symmetry; apply Z.ltb_lt; exact Hn).
  rewrite H0, H1. simpl.
  destruct (sorted_reverse_head
              (1%Q, word)
              (map (fun x => (ratio eqb x word, x))
                   (filter (close_enough eqb word cutoff) possibilities)))
    as [tl Htl].
  - apply in_map_iff. exists word. split.
    + rewrite ratio_same; reflexivity.
    + apply filter_In. split; [exact Hin | apply close_enough_same; exact H1].
  - intros p Hp. apply in_map_iff in Hp. destruct Hp as [x [<- _]].
    destruct (list_eq_dec elt_eq_dec x word) as [-> | Hne].
    + left. rewrite ratio_same; reflexivity.
    + right. pose proof (ratio_other x word Hne) as Hlt.
      unfold scored_ltb; simpl. split.
      * rewrite (proj1 (Qlt_alt _ _) Hlt). reflexivity.
      * rewrite (proj1 (Qgt_alt _ _) Hlt). reflexivity.
  - unfold nlargest. rewrite Htl.
    destruct (Z.to_nat n) as [|k] eqn:Ek; [lia|].
    simpl. eexists; reflexivity.
Qed.

End RatioFacts.

(** ** find_best_local_answer *)

Lemma ascii_ltb_irrefl (c : ascii) : ascii_ltb c c = false.
Proof. apply Nat.ltb_irrefl. Qed.

Lemma dict_get_key (kb : dict) (k : str) :
  In k (keys kb) -> exists v, dict_get kb k = Some v.
Proof.
  induction kb as [|[k' v] kb IH]; simpl; [tauto|].
  intros [-> | Hin].
  - rewrite str_eqb_refl. eauto.
  - destruct (str_eqb k' k); eauto.
Qed.

Lemma substring_fallback_first (kb : dict) (q : str) (cutoff : Q) :
  forall pre k post,
    substring_candidate q cutoff k = true ->
    (forall k', In k' pre -> substring_candidate q cutoff k' = false) ->
    substring_fallback (pre ++ k :: post) kb q cutoff
    = match dict_getitem kb k with
      | Return answer => Return (Some k, Some answer, similarity q k)
      | Raise e => Raise e
      end.
Proof.
  induction pre as [|k0 pre IH]; intros k post Hk Hpre; simpl.
  - unfold substring_candidate in Hk. apply andb_true_iff in Hk.
    destruct Hk as [-> ->]. reflexivity.
  - pose proof (Hpre k0 (or_introl eq_refl)) as H0.
    unfold substring_candidate in H0.
    rewrite IH by (auto; intros; apply Hpre; right; assumption).
    destruct (contains k0 q || contains q k0); [|reflexivity].
    simpl in H0. rewrite H0. reflexivity.
Qed.

Lemma substring_fallback_none (kb : dict) (q : str) (cutoff : Q) :
  forall ks,
    (forall k, In k ks -> substring_candidate q cutoff k = false) ->
    substring_fallback ks kb q cutoff = Return (None, None, 0%Q).
Proof.
  induction ks as [|k ks IH]; intros Hks; simpl; [reflexivity|].
  pose proof (Hks k (or_introl eq_refl)) as H0.
  unfold substring_candidate in H0.
  rewrite IH by (intros; apply Hks; right; assumption).
  destruct (contains k q || contains q k); [|reflexivity].
  simpl in H0. rewrite H0. reflexivity.
Qed.

Lemma substring_fallback_returns (kb : dict) (q : str) (cutoff : Q) :
  forall ks,
    (forall k, In k ks -> In k (keys kb)) ->
    exists r, substring_fallback ks kb q cutoff = Return r.
Proof.
  induction ks as [|k ks IH]; intros Hks; simpl; [eauto|].
  assert (Hrec : exists r, substring_fallback ks kb q cutoff = Return r)
    by (apply IH; intros; apply Hks; right; assumption).
  destruct (contains k q || contains q k); [|exact Hrec].
  destruct (Qle_bool cutoff (similarity q k)); [|exact Hrec].
  unfold dict_getitem.
  destruct (dict_get_key kb k (Hks k (or_introl eq_refl))) as [v ->]. eauto.
Qed.

Lemma substring_fallback_answer (kb : dict) (q : str) (cutoff : Q)
      (k a : str) (score : Q) :
  forall ks,
    substring_fallback ks kb q cutoff = Return (Some k, Some a, score) ->
    dict_get kb k = Some a.
Proof.
  induction ks as [|k0 ks IH]; simpl; [discriminate|].
  destruct (contains k0 q || contains q k0); [|exact IH].
  destruct (Qle_bool cutoff (similarity q k0)); [|exact IH].
  unfold dict_getitem. destruct (dict_get kb k0) eqn:E; [|discriminate].
  intros [= <- <- _]. exact E.
Qed.

(** A returned answer is the one stored under the returned key. *)
Lemma find_best_local_answer_stored (user_q : str) (kb : dict) (cutoff : Q)
      (k a : str) (score : Q) :
  find_best_local_answer user_q kb cutoff = Return (Some k, Some a, score) ->
  dict_get kb k = Some a.
Proof.
  unfold find_best_local_answer.
  destruct (get_close_matches Ascii.eqb ascii_ltb (normalize_text user_q)
                              (keys kb) 3 cutoff) as [[|best rest] | e];
    [apply substring_fallback_answer | | discriminate].
  unfold dict_getitem. destruct (dict_get kb best) eqn:E; [|discriminate].
  intros [= <- <- _]. exact E.
Qed.

(** C5 as stated does not hold: a negative cutoff is at most 1.0, and
    [get_close_matches] rejects it with a [ValueError]. *)
Lemma find_best_local_answer_negative_cutoff :
  In (lit "what is ai") (keys QA_KB) /\
  normalize_text (lit "what is ai") = lit "what is ai" /\
  Qle_bool (-1 # 2) 1 = true /\
  find_best_local_answer (lit "what is ai") QA_KB (-1 # 2)
  = Raise ValueError.
Proof. repeat split; try reflexivity. simpl; tauto. Qed.

(** C5, amended. For a key [k] of the knowledge base that is already
    normalized and a cutoff between 0.0 and 1.0,
    [find_best_local_answer k kb cutoff] returns [k], the answer stored
    under [k], and the score 1.0. *)
Theorem find_best_local_answer_exact_key (kb : dict) (k : str) (cutoff : Q) :
  In k (keys kb) ->
  normalize_text k = k ->
  Qle_bool 0 cutoff = true -> Qle_bool cutoff 1 = true ->
  exists answer,
    dict_get kb k = Some answer /\
    find_best_local_answer k kb cutoff = Return (Some k, Some answer, 1%Q).
Proof.
  intros Hin Hnorm H0 H1.
  destruct (dict_get_key kb k Hin) as [answer Hget].
  exists answer. split; [exact Hget|].
  unfold find_best_local_answer. rewrite Hnorm.
  destruct (get_close_matches_exact
              ascii Ascii.eqb ascii_ltb Ascii.eqb_eq ascii_ltb_irrefl
              k (keys kb) 3 cutoff eq_refl H0 H1 Hin) as [rest ->].
  unfold dict_getitem. rewrite Hget. unfold similarity.
  rewrite (ratio_same ascii Ascii.eqb Ascii.eqb_eq). reflexivity.
Qed.

Lemma find_best_local_answer_exact_key_witness :
  exists answer,
    dict_get QA_KB (lit "what is python") = Some answer /\
    find_best_local_answer (lit "what is python") QA_KB FUZZY_CUTOFF
    = Return (Some (lit "what is python"), Some answer, 1%Q).
Proof.
  apply (find_best_local_answer_exact_key QA_KB (lit "what is python")
                                          FUZZY_CUTOFF).
  - left; reflexivity.
  - reflexivity.
  - reflexivity.
  - reflexivity.
Defined.

(** C6 as stated does not hold: with a cutoff outside [0.0, 1.0] the
    function raises [ValueError]. *)
Lemma find_best_local_answer_raises :
  find_best_local_answer (lit "x") [] (2 # 1) = Raise ValueError.
Proof. reflexivity. Qed.

(** C6, amended. For a cutoff between 0.0 and 1.0 the function never
    raises.  When the ranked pass finds no candidate, the keys are
    tried in the order of the knowledge base: the first key that
    contains the normalized query or is contained in it, and whose
    similarity reaches the cutoff, is returned with its answer and that
    score; when no key passes, the result is [(None, None, 0.0)]. *)
Theorem find_best_local_answer_fallback
        (user_q : str) (kb : dict) (cutoff : Q) :
  Qle_bool 0 cutoff = true -> Qle_bool cutoff 1 = true ->
  (exists r, find_best_local_answer user_q kb cutoff = Return r) /\
  (get_close_matches Ascii.eqb ascii_ltb (normalize_text user_q)
                     (keys kb) 3 cutoff = Return [] ->
   (forall pre k post,
       keys kb = pre ++ k :: post ->
       substring_candidate (normalize_text user_q) cutoff k = true ->
       (forall k', In k' pre ->
                   substring_candidate (normalize_text user_q) cutoff k'
                   = false) ->
       exists answer,
         dict_get kb k = Some answer /\
         find_best_local_answer user_q kb cutoff
         = Return (Some k, Some answer,
                   similarity (normalize_text user_q) k)) /\
   ((forall k, In k (keys kb) ->
               substring_candidate (normalize_text user_q) cutoff k = false) ->
    find_best_local_answer user_q kb cutoff = Return (None, None, 0%Q))).
Proof.
  intros H0 H1. split.
  - unfold find_best_local_answer.
    destruct (get_close_matches_returns
                ascii Ascii.eqb ascii_ltb
                (normalize_text user_q) (keys kb) 3 cutoff eq_refl H0 H1)
      as [matches [-> Hsub]].
    destruct matches as [|best rest].
    + apply substring_fallback_returns. auto.
    + unfold dict_getitem.
      destruct (dict_get_key kb best (Hsub best (or_introl eq_refl)))
        as [v ->].
      eauto.
  - intros Hnone. unfold find_best_local_answer. rewrite Hnone. split.
    + intros pre k post Hkeys Hk Hpre.
      assert (Hin : In k (keys kb))
        by (rewrite Hkeys; apply in_or_app; right; left; reflexivity).
      destruct (dict_get_key kb k Hin) as [answer Hget].
      exists answer. split; [exact Hget|].
      rewrite Hkeys, substring_fallback_first by assumption.
      unfold dict_getitem. rewrite Hget. reflexivity.
    + apply substring_fallback_none.
Qed.

Lemma find_best_local_answer_fallback_witness :
  find_best_local_answer long_query long_kb FUZZY_CUTOFF
  = Return (Some long_key, Some (lit "a long answer"), (80 # 107)%Q).
Proof.
  destruct (find_best_local_answer_fallback long_query long_kb FUZZY_CUTOFF
                                            eq_refl eq_refl)
    as [_ Hfallback].
  destruct (Hfallback ltac:(vm_compute; reflexivity)) as [Hfirst _].
  destruct (Hfirst [] long_key [] eq_refl
                   ltac:(vm_compute; reflexivity)
                   ltac:(intros k' []))
    as [answer [Hget Hres]].
  rewrite Hres. vm_compute in Hget. injection Hget as <-.
  vm_compute. reflexivity.
Defined.

(** ** chatbot_reply: local lookup and fallbacks *)

Lemma QA_KB_answers_not_empty (k a : str) :
  dict_get QA_KB k = Some a -> a <> [].
Proof.
  unfold QA_KB, dict_get.
  repeat match goal with
         | |- context [str_eqb ?x k] => destruct (str_eqb x k)
         end;
    try discriminate; intros [= <-]; discriminate.
Qed.

Lemma truthy_not_empty (a : str) : a <> [] -> truthy (Some a) = true.
Proof. destruct a; [contradiction | reflexivity]. Qed.

Section ReplyFacts.

Variable World : Type.
Variable wikipedia_search : str -> Z -> World -> outcome (list str) * World.
Variable wikipedia_summary :
  str -> Z -> bool -> bool -> World -> outcome str * World.

Local Abbreviation reply :=
  (chatbot_reply wikipedia_search wikipedia_summary).
Local Abbreviation fetch :=
  (fetch_wikipedia_summary wikipedia_search wikipedia_summary).

(** Past the quick replies, the reply is decided by the local lookup. *)
Lemma reply_after_quick_replies (kb : dict) (user_input : str)
      (s : state World) :
  reaches_local_lookup user_input = true ->
  reply kb user_input s
  = bind (lift (find_best_local_answer (strip user_input) kb FUZZY_CUTOFF))
         (fun r =>
            let '(match_key, answer, score) := r in
            if truthy answer
            then if Qlt_bool score (8 # 10)%Q
                 then ret (lit "(Local) " ++ format_value answer)
                 else ret (format_value answer)
            else bind (fetch (strip user_input) WIKI_SENTENCES)
                      (fun wiki_ans =>
                         if truthy wiki_ans then ret (format_value wiki_ans)
                         else ret SORRY))
         s.
Proof.
  unfold reaches_local_lookup, chatbot_reply.
  rewrite !andb_true_iff, !negb_true_iff.
  intros [[[[[[H1 H2] H3] H4] H5] H6] H7].
  rewrite H1, H2, H3, H4, H5, H6, H7. reflexivity.
Qed.

(** With any knowledge base, a returned answer that is not empty is
    the reply, marked when the score is below 0.8. *)
Lemma reply_local_answer (kb : dict) (user_input : str) (s : state World)
      (k a : str) (score : Q) :
  reaches_local_lookup user_input = true ->
  find_best_local_answer (strip user_input) kb FUZZY_CUTOFF
  = Return (Some k, Some a, score) ->
  a <> [] ->
  reply kb user_input s
  = (Return (if Qlt_bool score (8 # 10)%Q then lit "(Local) " ++ a else a), s).
Proof.
  intros Hreach Hfind Ha. rewrite reply_after_quick_replies by exact Hreach.
  unfold bind, lift. rewrite Hfind, (truthy_not_empty a Ha).
  simpl format_value. destruct (Qlt_bool score (8 # 10)); reflexivity.
Qed.

(** C1. With the knowledge base of the program, for an input that
    reaches the local lookup, when [find_best_local_answer] returns a
    key, an answer and a score, the reply is "(Local) " followed by the
    answer if the score is below 0.8 and the answer itself otherwise;
    the provider is not called. *)
Theorem chatbot_reply_local_answer
        (user_input : str) (s : state World) (k a : str) (score : Q) :
  reaches_local_lookup user_input = true ->
  find_best_local_answer (strip user_input) QA_KB FUZZY_CUTOFF
  = Return (Some k, Some a, score) ->
  reply QA_KB user_input s
  = (Return (if Qlt_bool score (8 # 10)%Q then lit "(Local) " ++ a else a), s).
Proof.
  intros Hreach Hfind. apply (reply_local_answer QA_KB _ _ k); auto.
  apply (QA_KB_answers_not_empty k).
  apply (find_best_local_answer_stored _ _ _ _ _ _ Hfind).
Qed.

(** C10. When the local lookup returns a key whose stored answer is the
    empty string, whatever the score, the reply is the one given when
    the lookup returns no match: the provider is asked, its summary is
    the reply if there is one, and the generic fallback otherwise. *)
Theorem chatbot_reply_empty_answer
        (kb : dict) (user_input : str) (s : state World)
        (r : match_result) :
  reaches_local_lookup user_input = true ->
  find_best_local_answer (strip user_input) kb FUZZY_CUTOFF = Return r ->
  (exists k score, r = (Some k, Some [], score)) \/ r = (None, None, 0%Q) ->
  exists wiki_ans s',
    fetch (strip user_input) WIKI_SENTENCES s = (Return wiki_ans, s') /\
    reply kb user_input s
    = (Return (if truthy wiki_ans then format_value wiki_ans else SORRY), s').
Proof.
  intros Hreach Hfind Hr. rewrite reply_after_quick_replies by exact Hreach.
  destruct (fetch_wikipedia_summary_returns
              World wikipedia_search wikipedia_summary
              (strip user_input) WIKI_SENTENCES s) as [wiki_ans [s' Hfetch]].
  exists wiki_ans, s'. split; [exact Hfetch|].
  unfold bind at 1. unfold lift. rewrite Hfind.
  assert (Hfalse : truthy (snd (fst r)) = false)
    by (destruct Hr as [[k [score ->]] | ->]; reflexivity).
  destruct r as [[match_key answer] score]. simpl in Hfalse. rewrite Hfalse.
  unfold bind. rewrite Hfetch. destruct (truthy wiki_ans); reflexivity.
Qed.

End ReplyFacts.

Lemma chatbot_reply_local_answer_witness :
  chatbot_reply silent_search silent_summary QA_KB (lit "Elon Musk") start
  = (Return (lit "(Local) Elon Musk is an entrepreneur and CEO of Tesla and SpaceX, among other ventures."),
     start).
Proof.
  apply (chatbot_reply_local_answer
           unit silent_search silent_summary (lit "Elon Musk") start
           (lit "who is elon musk")
           (lit "Elon Musk is an entrepreneur and CEO of Tesla and SpaceX, among other ventures.")
           (18 # 25)%Q).
  - reflexivity.
  - vm_compute. reflexivity.
Defined.

Lemma chatbot_reply_empty_answer_witness :
  exists wiki_ans s',
    fetch_wikipedia_summary silent_search silent_summary
                            (strip (lit "abc")) WIKI_SENTENCES start
    = (Return wiki_ans, s') /\
    chatbot_reply silent_search silent_summary empty_answer_kb (lit "abc")
                  start
    = (Return (if truthy wiki_ans then format_value wiki_ans else SORRY), s').
Proof.
  apply (chatbot_reply_empty_answer
           unit silent_search silent_summary empty_answer_kb (lit "abc") start
           (Some (lit "abc"), Some [], 1%Q)).
  - reflexivity.
  - vm_compute. reflexivity.
  - left. exists (lit "abc"), 1%Q. reflexivity.
Defined.

(** * Further properties of Main.py *)

(** ** Trimming *)

Lemma drop_while_split (p : ascii -> bool) (s : str) :
  exists pre, s = pre ++ drop_while p s /\ forallb p pre = true.
Proof.
  induction s as [|c s [pre [H1 H2]]]; simpl.
  - exists []; auto.
  - destruct (p c) eqn:E.
    + exists (c :: pre). simpl. rewrite E, H2. split; [f_equal; exact H1 | auto].
    + exists []; auto.
Qed.

Lemma drop_while_idem (p : ascii -> bool) (s : str) :
  drop_while p (drop_while p s) = drop_while p s.
Proof.
  induction s as [|c s IH]; simpl; [reflexivity|].
  destruct (p c) eqn:E; [exact IH | simpl; rewrite E; reflexivity].
Qed.

Lemma drop_while_prefix (p : ascii -> bool) (u w : str) :
  u <> [] -> drop_while p (u ++ w) = u ++ w -> drop_while p u = u.
Proof.
  destruct u as [|c u]; [contradiction|]. intros _. simpl.
  destruct (p c) eqn:E; [|reflexivity].
  intros H. pose proof (drop_while_split p (u ++ w)) as [pre [H1 _]].
  apply (f_equal (@length ascii)) in H. apply (f_equal (@length ascii)) in H1.
  rewrite (length_app pre) in H1. simpl in H. lia.
Qed.

(** A trimmed string has no whitespace at either end. *)
Lemma strip_trimmed (s : str) :
  drop_while is_space (strip s) = strip s /\
  drop_while is_space (rev (strip s)) = rev (strip s).
Proof.
  unfold strip, rstrip, lstrip. set (t := drop_while is_space s).
  assert (Ht : drop_while is_space t = t) by apply drop_while_idem.
  split.
  - destruct (drop_while_split is_space (rev t)) as [pre [H1 _]].
    apply (f_equal (@rev ascii)) in H1.
    rewrite rev_involutive, rev_app_distr in H1.
    destruct (rev (drop_while is_space (rev t))) as [|c u] eqn:Eu;
      [reflexivity|].
    apply (drop_while_prefix is_space (c :: u) (rev pre)); [discriminate|].
    rewrite <- H1. exact Ht.
  - rewrite rev_involutive. apply drop_while_idem.
Qed.

Lemma strip_idem (s : str) : strip (strip s) = strip s.
Proof.
  destruct (strip_trimmed s) as [H1 H2].
  unfold strip at 1. unfold rstrip, lstrip.
  rewrite H1, H2. apply rev_involutive.
Qed.

(** ** normalize_text: what a second pass does *)

Lemma is_word_not_space (c : ascii) : is_word c = true -> is_space c = false.
Proof. destruct c as [[] [] [] [] [] [] [] []]; vm_compute; congruence. Qed.

Lemma has_space_run_split (s : str) :
  has_space_run s = true <->
  exists l c d r, s = l ++ c :: d :: r /\
                  is_space c = true /\ is_space d = true.
Proof.
  induction s as [|c s IH].
  - split; [discriminate | intros [l [c [d [r [H _]]]]]].
    destruct l; discriminate.
  - destruct s as [|d s].
    + split; [discriminate | intros [l [c' [d' [r [H _]]]]]].
      destruct l as [|x [|y l]]; discriminate.
    + change (has_space_run (c :: d :: s))
        with ((is_space c && is_space d) || has_space_run (d :: s)).
      rewrite orb_true_iff, andb_true_iff, IH. split.
      * intros [[H1 H2] | [l [c' [d' [r [H [H1 H2]]]]]]].
        -- exists [], c, d, s; auto.
        -- exists (c :: l), c', d', r. simpl. rewrite H. auto.
      * intros [[|x l] [c' [d' [r [H [H1 H2]]]]]].
        -- injection H as -> -> ->. left; auto.
        -- injection H as -> H. right. exists l, c', d', r; auto.
Qed.

Lemma has_space_run_rev (s : str) :
  has_space_run (rev s) = true -> has_space_run s = true.
Proof.
  rewrite !has_space_run_split. intros [l [c [d [r [H [H1 H2]]]]]].
  apply (f_equal (@rev ascii)) in H. rewrite rev_involutive in H.
  exists (rev r), d, c, (rev l). split; [|auto].
  rewrite H, rev_app_distr. simpl. rewrite <- !app_assoc. reflexivity.
Qed.

Lemma has_space_run_drop_while (p : ascii -> bool) (s : str) :
  has_space_run (drop_while p s) = true -> has_space_run s = true.
Proof.
  rewrite !has_space_run_split. intros [l [c [d [r [H [H1 H2]]]]]].
  destruct (drop_while_split p s) as [pre [Hs _]].
  exists (pre ++ l), c, d, r. split; [|auto].
  rewrite Hs at 1. rewrite H, <- app_assoc. reflexivity.
Qed.

Lemma has_space_run_strip (s : str) :
  has_space_run s = false -> has_space_run (strip s) = false.
Proof.
  intros H. destruct (has_space_run (strip s)) eqn:E; [|reflexivity].
  unfold strip, rstrip, lstrip in E.
  apply has_space_run_rev in E.
  apply has_space_run_drop_while, has_space_run_rev in E.
  apply has_space_run_drop_while in E. congruence.
Qed.

(** [re.sub(r"\s+", " ", text)] changes nothing in a text whose
    whitespace is made of single spaces. *)
Lemma sub_space_runs_fixed (s : str) :
  (forall c, In c s -> is_space c = true -> c = " "%char) ->
  has_space_run s = false ->
  sub_space_runs false s = s /\
  (match s with
   | c :: _ => is_space c = false
   | [] => True
   end -> sub_space_runs true s = s).
Proof.
  induction s as [|c s IH]; intros Hsp Hrun; [simpl; auto|].
  assert (Hsp' : forall d, In d s -> is_space d = true -> d = " "%char)
    by (intros; apply Hsp; [right|]; assumption).
  assert (Hrun' : has_space_run s = false).
  { destruct s as [|d s]; [reflexivity|].
    change (has_space_run (c :: d :: s))
      with ((is_space c && is_space d) || has_space_run (d :: s)) in Hrun.
    apply orb_false_iff in Hrun. tauto. }
  destruct (IH Hsp' Hrun') as [IH1 IH2]. simpl.
  destruct (is_space c) eqn:E.
  - split; [|discriminate].
    rewrite (Hsp c (or_introl eq_refl) E). f_equal. apply IH2.
    destruct s as [|d s]; [exact I|].
    change (has_space_run (c :: d :: s))
      with ((is_space c && is_space d) || has_space_run (d :: s)) in Hrun.
    rewrite E in Hrun. simpl in Hrun. apply orb_false_iff in Hrun. tauto.
  - rewrite IH1. auto.
Qed.

Lemma filter_all (f : ascii -> bool) (s : str) :
  (forall c, In c s -> f c = true) -> filter f s = s.
Proof.
  induction s as [|c s IH]; intros H; simpl; [reflexivity|].
  rewrite (H c (or_introl eq_refl)). f_equal. apply IH.
  intros; apply H; right; assumption.
Qed.

Lemma normalize_text_again (text : str) :
  normalize_text (normalize_text text) = strip (normalize_text text).
Proof.
  set (y := normalize_text text).
  unfold normalize_text at 1. fold y.
  replace (lower y) with y by (symmetry; apply normalize_text_lowercase).
  assert (Hchars : forall c, In c (strip y) ->
                             is_word c = true \/ c = " "%char)
    by (intros c Hc; apply (normalize_text_characters text);
        apply strip_In; exact Hc).
  unfold sub_nonword_nonspace. rewrite filter_all.
  - apply sub_space_runs_fixed.
    + intros c Hc Hs. destruct (Hchars c Hc) as [Hw | ->]; [|reflexivity].
      apply is_word_not_space in Hw. congruence.
    + apply has_space_run_strip, normalize_text_no_space_run.
  - intros c Hc. destruct (Hchars c Hc) as [-> | ->]; reflexivity.
Qed.

(** X1. A second pass of [normalize_text] only trims the result of the
    first: it removes the space that the first pass may leave at
    either end and changes nothing else. *)
Theorem normalize_text_second_pass (text : str) :
  normalize_text (normalize_text text) = strip (normalize_text text).
Proof. apply normalize_text_again. Qed.

(** X2. From the second pass on [normalize_text] changes nothing:
    three passes give what two give. *)
Theorem normalize_text_stable (text : str) :
  normalize_text (normalize_text (normalize_text text))
  = normalize_text (normalize_text text).
Proof.
  rewrite (normalize_text_again (normalize_text text)).
  rewrite (normalize_text_again text). apply strip_idem.
Qed.

(** X3. The output of [normalize_text] is lowercase, is made of word
    characters (alphanumerics and the underscore) and of spaces, and
    holds no two adjacent whitespace characters. *)
Theorem normalize_text_shape (text : str) :
  lower (normalize_text text) = normalize_text text /\
  (forall c, In c (normalize_text text) ->
             is_word c = true \/ c = " "%char) /\
  has_space_run (normalize_text text) = false.
Proof.
  split; [apply normalize_text_lowercase|].
  split; [apply normalize_text_characters | apply normalize_text_no_space_run].
Qed.

Lemma normalize_text_lower (text : str) :
  normalize_text (lower text) = normalize_text text.
Proof. unfold normalize_text. rewrite lower_idem. reflexivity. Qed.

Lemma normalize_text_strip (text : str) :
  normalize_text (strip text) = normalize_text text.
Proof. unfold normalize_text. rewrite lower_strip, strip_idem. reflexivity. Qed.

(** X4. [normalize_text] does not see the case of its input nor the
    whitespace around it. *)
Theorem normalize_text_case_and_margin (text : str) :
  normalize_text (lower text) = normalize_text text /\
  normalize_text (strip text) = normalize_text text.
Proof. split; [apply normalize_text_lower | apply normalize_text_strip]. Qed.

(** ** find_best_local_answer: errors, shape of the result *)

Lemma calculate_ratio_bounds (m t : nat) :
  2 * m <= t -> (0 <= calculate_ratio m t)%Q /\ (calculate_ratio m t <= 1)%Q.
Proof.
  intros H. unfold calculate_ratio.
  destruct (t =? 0) eqn:E; [split; discriminate|].
  apply Nat.eqb_neq in E. rewrite Qred_correct.
  unfold Qle; simpl Qnum; simpl Qden. rewrite Zpos_of_nat by exact E.
  split; lia.
Qed.

Lemma similarity_bounds (a b : str) :
  (0 <= similarity a b)%Q /\ (similarity a b <= 1)%Q.
Proof.
  unfold similarity, ratio. apply calculate_ratio_bounds.
  destruct (matched_total_sound ascii Ascii.eqb Ascii.eqb_eq a b)
    as [H1 [H2 _]].
  simpl in H1, H2. lia.
Qed.

(** The candidates [get_close_matches] returns passed its three tests. *)
Lemma get_close_matches_close
      (word : str) (possibilities : list str) (n : Z) (cutoff : Q)
      (matches : list str) :
  get_close_matches Ascii.eqb ascii_ltb word possibilities n cutoff
  = Return matches ->
  forall x, In x matches ->
            In x possibilities /\
            close_enough Ascii.eqb word cutoff x = true.
Proof.
  unfold get_close_matches.
  destruct (negb (0 <? n)%Z); [discriminate|].
  destruct (negb (Qle_bool 0 cutoff && Qle_bool cutoff 1)); [discriminate|].
  intros [= <-] x Hx. apply in_map_iff in Hx. destruct Hx as [[sc y] [Hy Hin]].
  simpl in Hy; subst y. unfold nlargest in Hin. apply firstn_In in Hin.
  apply (proj1 (sorted_reverse_In _ _ _ _ _)) in Hin.
  apply in_map_iff in Hin. destruct Hin as [y [Hy Hin]]. injection Hy as _ ->.
  apply filter_In in Hin. exact Hin.
Qed.

Lemma get_close_matches_only_ValueError
      (word : str) (possibilities : list str) (n : Z) (cutoff : Q) (e : exn) :
  get_close_matches Ascii.eqb ascii_ltb word possibilities n cutoff = Raise e ->
  e = ValueError /\
  ((0 <? n)%Z = false \/ Qle_bool 0 cutoff && Qle_bool cutoff 1 = false).
Proof.
  unfold get_close_matches.
  destruct (0 <? n)%Z; simpl; [|intros [= <-]; auto].
  destruct (Qle_bool 0 cutoff && Qle_bool cutoff 1); simpl;
    [discriminate | intros [= <-]; auto].
Qed.

Lemma substring_fallback_shape (kb : dict) (q : str) (cutoff : Q) :
  forall ks r,
    (forall k, In k ks -> In k (keys kb)) ->
    substring_fallback ks kb q cutoff = Return r ->
    r = (None, None, 0%Q) \/
    exists k a,
      r = (Some k, Some a, similarity q k) /\
      In k (keys kb) /\ dict_get kb k = Some a /\
      substring_candidate q cutoff k = true.
Proof.
  induction ks as [|k ks IH]; intros r Hks; simpl.
  - intros [= <-]; auto.
  - assert (Hks' : forall k', In k' ks -> In k' (keys kb))
      by (intros; apply Hks; right; assumption).
    destruct (contains k q || contains q k) eqn:E1; [|apply IH; exact Hks'].
    destruct (Qle_bool cutoff (similarity q k)) eqn:E2;
      [|apply IH; exact Hks'].
    unfold dict_getitem. destruct (dict_get kb k) as [a|] eqn:E3;
      [|discriminate].
    intros [= <-]. right. exists k, a. repeat split; auto.
    + apply Hks; left; reflexivity.
    + unfold substring_candidate. rewrite E1, E2. reflexivity.
Qed.

Lemma find_best_local_answer_in_range (user_q : str) (kb : dict) (cutoff : Q) :
  Qle_bool 0 cutoff = true -> Qle_bool cutoff 1 = true ->
  exists r, find_best_local_answer user_q kb cutoff = Return r.
Proof.
  intros H0 H1. unfold find_best_local_answer.
  destruct (get_close_matches_returns
              ascii Ascii.eqb ascii_ltb
              (normalize_text user_q) (keys kb) 3 cutoff eq_refl H0 H1)
    as [matches [-> Hsub]].
  destruct matches as [|best rest].
  - apply substring_fallback_returns. auto.
  - unfold dict_getitem.
    destruct (dict_get_key kb best (Hsub best (or_introl eq_refl))) as [v ->].
    eauto.
Qed.

(** X5. [find_best_local_answer] raises exactly when the cutoff lies
    outside [0.0, 1.0], and what it raises is the [ValueError] of
    [get_close_matches]; no other exception leaves it. *)
Theorem find_best_local_answer_errors (user_q : str) (kb : dict) (cutoff : Q) :
  (Qle_bool 0 cutoff && Qle_bool cutoff 1 = false ->
   find_best_local_answer user_q kb cutoff = Raise ValueError) /\
  (forall e, find_best_local_answer user_q kb cutoff = Raise e ->
             e = ValueError /\
             Qle_bool 0 cutoff && Qle_bool cutoff 1 = false).
Proof.
  split.
  - intros H. unfold find_best_local_answer.
    rewrite (get_close_matches_raises _ _ _ _ _ _ _ H). reflexivity.
  - intros e He.
    destruct (Qle_bool 0 cutoff && Qle_bool cutoff 1) eqn:E.
    + apply andb_true_iff in E. destruct E as [E0 E1].
      destruct (find_best_local_answer_in_range user_q kb cutoff E0 E1)
        as [r Hr].
      congruence.
    + unfold find_best_local_answer in He.
      rewrite (get_close_matches_raises _ Ascii.eqb ascii_ltb
                                        (normalize_text user_q) (keys kb)
                                        3 cutoff E) in He.
      injection He as <-. auto.
Qed.

(** X6. What [find_best_local_answer] returns is the empty result
    [(None, None, 0.0)] or a key of the knowledge base with the answer
    stored under it and the similarity of the normalized query to the
    key, a score between 0.0 and 1.0; the key passed the ranked test
    of [get_close_matches] or the substring test of the fallback. *)
Theorem find_best_local_answer_shape
        (user_q : str) (kb : dict) (cutoff : Q) (r : match_result) :
  find_best_local_answer user_q kb cutoff = Return r ->
  r = (None, None, 0%Q) \/
  exists k a score,
    r = (Some k, Some a, score) /\
    In k (keys kb) /\ dict_get kb k = Some a /\
    score = similarity (normalize_text user_q) k /\
    (0 <= score)%Q /\ (score <= 1)%Q /\
    (close_enough Ascii.eqb (normalize_text user_q) cutoff k = true \/
     substring_candidate (normalize_text user_q) cutoff k = true).
Proof.
  unfold find_best_local_answer.
  destruct (get_close_matches Ascii.eqb ascii_ltb (normalize_text user_q)
                              (keys kb) 3 cutoff) as [matches | e] eqn:E;
    [|discriminate].
  destruct matches as [|best rest].
  - intros H. apply substring_fallback_shape in H; [|auto].
    destruct H as [-> | [k [a [-> [H1 [H2 H3]]]]]]; [auto|].
    right. exists k, a, (similarity (normalize_text user_q) k).
    destruct (similarity_bounds (normalize_text user_q) k).
    repeat split; auto.
  - destruct (get_close_matches_close _ _ _ _ _ E best (or_introl eq_refl))
      as [Hin Hclose].
    unfold dict_getitem. destruct (dict_get kb best) as [a|] eqn:Ea;
      [|discriminate].
    intros [= <-]. right.
    exists best, a, (similarity (normalize_text user_q) best).
    destruct (similarity_bounds (normalize_text user_q) best).
    repeat split; auto.
Qed.

Lemma find_best_local_answer_shape_witness :
  (Some (lit "who is elon musk"),
   Some (lit "Elon Musk is an entrepreneur and CEO of Tesla and SpaceX, among other ventures."),
   (18 # 25)%Q) = (None, None, 0%Q) \/
  exists k a score,
    (Some (lit "who is elon musk"),
     Some (lit "Elon Musk is an entrepreneur and CEO of Tesla and SpaceX, among other ventures."),
     (18 # 25)%Q) = (Some k, Some a, score) /\
    In k (keys QA_KB) /\ dict_get QA_KB k = Some a /\
    score = similarity (normalize_text (lit "Elon Musk")) k /\
    (0 <= score)%Q /\ (score <= 1)%Q /\
    (close_enough Ascii.eqb (normalize_text (lit "Elon Musk")) FUZZY_CUTOFF k
     = true \/
     substring_candidate (normalize_text (lit "Elon Musk")) FUZZY_CUTOFF k
     = true).
Proof.
  apply (find_best_local_answer_shape (lit "Elon Musk") QA_KB FUZZY_CUTOFF).
  vm_compute. reflexivity.
Defined.

Lemma find_best_local_answer_normalized_key_aux (user_q : str) (kb : dict) :
  In (normalize_text user_q) (keys kb) ->
  exists answer,
    dict_get kb (normalize_text user_q) = Some answer /\
    find_best_local_answer user_q kb FUZZY_CUTOFF
    = Return (Some (normalize_text user_q), Some answer, 1%Q).
Proof.
  intros Hin.
  destruct (dict_get_key kb _ Hin) as [answer Hget].
  exists answer. split; [exact Hget|].
  unfold find_best_local_answer.
  destruct (get_close_matches_exact
              ascii Ascii.eqb ascii_ltb Ascii.eqb_eq ascii_ltb_irrefl
              (normalize_text user_q) (keys kb) 3 FUZZY_CUTOFF
              eq_refl eq_refl eq_refl Hin)
    as [rest ->].
  unfold dict_getitem. rewrite Hget. unfold similarity.
  rewrite (ratio_same ascii Ascii.eqb Ascii.eqb_eq). reflexivity.
Qed.

(** X7. A query that normalizes to a key of the knowledge base gets
    that key, its stored answer and the score 1.0, for every cutoff
    between 0.0 and 1.0: case, punctuation and spacing of the question
    do not matter. *)
Theorem find_best_local_answer_normalized_key
        (user_q : str) (kb : dict) (cutoff : Q) :
  In (normalize_text user_q) (keys kb) ->
  Qle_bool 0 cutoff = true -> Qle_bool cutoff 1 = true ->
  exists answer,
    dict_get kb (normalize_text user_q) = Some answer /\
    find_best_local_answer user_q kb cutoff
    = Return (Some (normalize_text user_q), Some answer, 1%Q).
Proof.
  intros Hin H0 H1.
  destruct (dict_get_key kb _ Hin) as [answer Hget].
  exists answer. split; [exact Hget|].
  unfold find_best_local_answer.
  destruct (get_close_matches_exact
              ascii Ascii.eqb ascii_ltb Ascii.eqb_eq ascii_ltb_irrefl
              (normalize_text user_q) (keys kb) 3 cutoff eq_refl H0 H1 Hin)
    as [rest ->].
  unfold dict_getitem. rewrite Hget. unfold similarity.
  rewrite (ratio_same ascii Ascii.eqb Ascii.eqb_eq). reflexivity.
Qed.

Lemma find_best_local_answer_normalized_key_witness :
  exists answer,
    dict_get QA_KB (normalize_text (lit "  What is Python?? ")) = Some answer /\
    find_best_local_answer (lit "  What is Python?? ") QA_KB FUZZY_CUTOFF
    = Return (Some (normalize_text (lit "  What is Python?? ")),
              Some answer, 1%Q).
Proof.
  apply (find_best_local_answer_normalized_key
           (lit "  What is Python?? ") QA_KB FUZZY_CUTOFF).
  - left; reflexivity.
  - reflexivity.
  - reflexivity.
Defined.

Lemma find_best_local_answer_strip (user_q : str) (kb : dict) (cutoff : Q) :
  find_best_local_answer (strip user_q) kb cutoff
  = find_best_local_answer user_q kb cutoff.
Proof.
  unfold find_best_local_answer. rewrite normalize_text_strip. reflexivity.
Qed.

(** X8. The local lookup does not see the case of the question nor the
    whitespace around it: the result is the one for the lowercase and
    for the trimmed question. *)
Theorem find_best_local_answer_case_and_margin
        (user_q : str) (kb : dict) (cutoff : Q) :
  find_best_local_answer (lower user_q) kb cutoff
  = find_best_local_answer user_q kb cutoff /\
  find_best_local_answer (strip user_q) kb cutoff
  = find_best_local_answer user_q kb cutoff.
Proof.
  split; [|apply find_best_local_answer_strip].
  unfold find_best_local_answer. rewrite normalize_text_lower. reflexivity.
Qed.

(** ** fetch_wikipedia_summary: the requests it makes *)

Section FetchRequests.

Variable World : Type.
Variable wikipedia_search : str -> Z -> World -> outcome (list str) * World.
Variable wikipedia_summary :
  str -> Z -> bool -> bool -> World -> outcome str * World.

Local Abbreviation fetch :=
  (fetch_wikipedia_summary wikipedia_search wikipedia_summary).

Ltac run_fetch :=
  unfold fetch_wikipedia_summary, try_except, bind, search, summary, lift, ret;
  simpl.

Ltac requests_done :=
  simpl; rewrite <- ?app_assoc; simpl;
  eexists; split; [reflexivity | split; [simpl; lia |]];
  repeat constructor; eexists; reflexivity.

Lemma fetch_wikipedia_summary_calls
      (query : str) (sentences : Z) (s : state World) :
  exists more,
    calls (snd (fetch query sentences s))
    = calls s ++ CallSearch query 5 :: more /\
    length more <= 2 /\
    Forall (fun c => exists title, c = CallSummary title sentences false true)
           more.
Proof.
  run_fetch.
  destruct (wikipedia_search query 5 (world s)) as [[results | e] w1].
  - destruct results as [|page_title rest]; simpl; [requests_done|].
    destruct (wikipedia_summary page_title sentences false true w1)
      as [[text | e] w2]; simpl; [requests_done|].
    destruct e as [| | | options | |]; simpl; try requests_done.
    destruct options as [|option others]; simpl; try requests_done.
    destruct (wikipedia_summary option sentences false true w2)
      as [[text | e] w3]; requests_done.
  - destruct e as [| | | options | |]; simpl; try requests_done.
    destruct options as [|option others]; simpl; try requests_done.
    destruct (wikipedia_summary option sentences false true w1)
      as [[text | e'] w3]; requests_done.
Qed.

(** X9. Every call of [fetch_wikipedia_summary] first sends the search
    for the query with a limit of 5 results and then at most two
    summary requests, each for the given number of sentences, without
    auto-suggestion and with redirects; the earlier log is kept. *)
Theorem fetch_wikipedia_summary_requests
        (query : str) (sentences : Z) (s : state World) :
  exists more,
    calls (snd (fetch query sentences s))
    = calls s ++ CallSearch query 5 :: more /\
    length more <= 2 /\
    Forall (fun c => exists title, c = CallSummary title sentences false true)
           more.
Proof. apply fetch_wikipedia_summary_calls. Qed.

(** X10. A search without results ends the lookup: the result is
    [None] and no summary is requested. *)
Theorem fetch_wikipedia_summary_no_results
        (query : str) (sentences : Z) (s : state World) (w : World) :
  wikipedia_search query 5 (world s) = (Return [], w) ->
  fetch query sentences s
  = (Return None,
     {| world := w; calls := calls s ++ [CallSearch query 5] |}).
Proof. intros H. run_fetch. rewrite H. reflexivity. Qed.

(** X11. When the search has results and the summary of the first one
    is returned, the result is that summary under the attribution line
    that names the first title; the other titles are not used and two
    requests are made. *)
Theorem fetch_wikipedia_summary_top_result
        (query : str) (sentences : Z) (s : state World)
        (page_title : str) (more : list str) (text : str) (w1 w2 : World) :
  wikipedia_search query 5 (world s) = (Return (page_title :: more), w1) ->
  wikipedia_summary page_title sentences false true w1 = (Return text, w2) ->
  fetch query sentences s
  = (Return (Some (lit "According to Wikipedia (" ++ page_title
                       ++ lit "):" ++ nl ++ text)),
     {| world := w2;
        calls := calls s ++ [CallSearch query 5;
                             CallSummary page_title sentences false true] |}).
Proof.
  intros H1 H2. run_fetch. rewrite H1; simpl. rewrite H2; simpl.
  rewrite <- app_assoc. reflexivity.
Qed.

(** X12. Only a disambiguation error is retried: when the search or
    the first summary request raises anything else, the result is
    [None] and no further request is made. *)
Theorem fetch_wikipedia_summary_no_retry
        (query : str) (sentences : Z) (s : state World) (e : exn) :
  (forall options, e <> DisambiguationError options) ->
  (forall w,
      wikipedia_search query 5 (world s) = (Raise e, w) ->
      fetch query sentences s
      = (Return None,
         {| world := w; calls := calls s ++ [CallSearch query 5] |})) /\
  (forall page_title more w1 w2,
      wikipedia_search query 5 (world s) = (Return (page_title :: more), w1) ->
      wikipedia_summary page_title sentences false true w1 = (Raise e, w2) ->
      fetch query sentences s
      = (Return None,
         {| world := w2;
            calls := calls s
                     ++ [CallSearch query 5;
                         CallSummary page_title sentences false true] |})).
Proof.
  intros He. split.
  - intros w H. run_fetch. rewrite H; simpl.
    destruct e as [| | | options | |]; try reflexivity.
    exfalso; exact (He options eq_refl).
  - intros page_title more w1 w2 H1 H2. run_fetch.
    rewrite H1; simpl. rewrite H2; simpl. rewrite <- app_assoc.
    destruct e as [| | | options | |]; try reflexivity.
    exfalso; exact (He options eq_refl).
Qed.

Lemma fetch_wikipedia_summary_truthy
      (query : str) (sentences : Z) (s : state World) :
  exists r s',
    fetch query sentences s = (Return r, s') /\
    (r = None \/ truthy r = true).
Proof.
  run_fetch.
  destruct (wikipedia_search query 5 (world s)) as [[results | e] w1].
  - destruct results as [|page_title more]; simpl; [eauto|].
    destruct (wikipedia_summary page_title sentences false true w1)
      as [[text | e] w2]; simpl; [eauto 6|].
    destruct e as [| | | options | |]; simpl; eauto.
    destruct options as [|option others]; simpl; eauto.
    destruct (wikipedia_summary option sentences false true w2)
      as [[text | e] w3]; simpl; eauto 6.
  - destruct e as [| | | options | |]; simpl; eauto.
    destruct options as [|option others]; simpl; eauto.
    destruct (wikipedia_summary option sentences false true w1)
      as [[text | e'] w3]; simpl; eauto 6.
Qed.

End FetchRequests.

Lemma fetch_wikipedia_summary_no_results_witness :
  fetch_wikipedia_summary silent_search silent_summary
                          (lit "xyzzy") WIKI_SENTENCES start
  = (Return None,
     {| world := tt; calls := [CallSearch (lit "xyzzy") 5] |}).
Proof.
  exact (fetch_wikipedia_summary_no_results
           unit silent_search silent_summary (lit "xyzzy") WIKI_SENTENCES
           start tt eq_refl).
Defined.

Lemma fetch_wikipedia_summary_no_retry_witness :
  fetch_wikipedia_summary mercury_search silent_summary
                          (lit "mercury") WIKI_SENTENCES start
  = (Return None,
     {| world := tt;
        calls := [CallSearch (lit "mercury") 5;
                  CallSummary (lit "Mercury") 2 false true] |}).
Proof.
  destruct (fetch_wikipedia_summary_no_retry
              unit mercury_search silent_summary
              (lit "mercury") WIKI_SENTENCES start PageError
              ltac:(intros options; discriminate)) as [_ H].
  exact (H (lit "Mercury") [] tt tt eq_refl eq_refl).
Defined.

Lemma fetch_wikipedia_summary_top_result_witness :
  fetch_wikipedia_summary mercury_search plain_summary
                          (lit "mercury") WIKI_SENTENCES start
  = (Return (Some (lit "According to Wikipedia (" ++ lit "Mercury"
                       ++ lit "):" ++ nl ++ lit "A summary of Mercury")),
     {| world := tt;
        calls := [CallSearch (lit "mercury") 5;
                  CallSummary (lit "Mercury") 2 false true] |}).
Proof.
  exact (fetch_wikipedia_summary_top_result
           unit mercury_search plain_summary (lit "mercury") WIKI_SENTENCES
           start (lit "Mercury") [] (lit "A summary of Mercury") tt tt
           eq_refl eq_refl).
Defined.

(** ** chatbot_reply: the contract of the resolver *)

Lemma strip_blank (s : str) : forallb is_space s = true -> strip s = [].
Proof.
  intros H. unfold strip, rstrip, lstrip.
  replace (drop_while is_space s) with (@nil ascii); [reflexivity|].
  induction s as [|c s IH]; simpl in *; [reflexivity|].
  apply andb_true_iff in H. destruct H as [-> H]. auto.
Qed.

Lemma strip_empty_blank (s : str) : strip s = [] -> forallb is_space s = true.
Proof.
  unfold strip, rstrip, lstrip. intros H.
  destruct (drop_while_split is_space s) as [pre [H1 H2]].
  destruct (drop_while_split is_space (rev (drop_while is_space s)))
    as [pre' [H3 H4]].
  apply (f_equal (@rev ascii)) in H3.
  rewrite rev_involutive, rev_app_distr, H in H3. simpl in H3.
  rewrite H1, H3, forallb_app, H2. simpl.
  rewrite forallb_forall in *. intros c Hc. apply H4. apply in_rev. exact Hc.
Qed.

Lemma dict_get_In (kb : dict) (k v : str) :
  dict_get kb k = Some v -> In k (keys kb).
Proof.
  induction kb as [|[k' v'] kb IH]; simpl; [discriminate|].
  destruct (str_eqb k' k) eqn:E.
  - apply str_eqb_eq in E. auto.
  - auto.
Qed.

Section ReplyContract.

Variable World : Type.
Variable wikipedia_search : str -> Z -> World -> outcome (list str) * World.
Variable wikipedia_summary :
  str -> Z -> bool -> bool -> World -> outcome str * World.

Local Abbreviation reply :=
  (chatbot_reply wikipedia_search wikipedia_summary).
Local Abbreviation fetch :=
  (fetch_wikipedia_summary wikipedia_search wikipedia_summary).

(** An input stopped by the guards gets a canned text: neither the
    knowledge base nor the state matters. *)
Lemma reply_canned (kb : dict) (user_input : str) (s : state World) :
  reaches_local_lookup user_input = false ->
  exists text,
    text <> [] /\
    forall kb' (s' : state World), reply kb' user_input s' = (Return text, s').
Proof.
  unfold reaches_local_lookup, chatbot_reply. intros H.
  destruct (str_eqb (strip user_input) []);
    [eexists; split; [|intros; reflexivity]; discriminate|].
  destruct (existsb (fun g => contains g (lower (strip user_input)))
                    [lit "hi"; lit "hello"; lit "hey"]);
    [eexists; split; [|intros; reflexivity]; discriminate|].
  destruct (contains (lit "how are you") (lower (strip user_input))
            || contains (lit "how r you") (lower (strip user_input))
            || contains (lit "how are u") (lower (strip user_input)));
    [eexists; split; [|intros; reflexivity]; discriminate|].
  destruct (contains (lit "your name") (lower (strip user_input))
            || contains (lit "who are you") (lower (strip user_input)));
    [eexists; split; [|intros; reflexivity]; discriminate|].
  destruct (existsb (str_eqb (strip (lower (strip user_input))))
                    [lit "thanks"; lit "thank you"; lit "thx"]);
    [eexists; split; [|intros; reflexivity]; discriminate|].
  destruct (existsb (str_eqb (strip (lower (strip user_input))))
                    [lit "bye"; lit "goodbye"; lit "exit"; lit "quit"]);
    [eexists; split; [|intros; reflexivity]; discriminate|].
  destruct (str_eqb (strip (lower (strip user_input))) (lit "help"));
    [eexists; split; [|intros; reflexivity]; discriminate|].
  discriminate.
Qed.

(** Past the guards the reply is never empty and the log of requests
    grows by what [fetch_wikipedia_summary] sends, if it is called. *)
Lemma reply_looked_up (kb : dict) (user_input : str) (s : state World) :
  reaches_local_lookup user_input = true ->
  exists text s',
    reply kb user_input s = (Return text, s') /\ text <> [] /\
    (s' = s \/ s' = snd (fetch (strip user_input) WIKI_SENTENCES s)).
Proof.
  intros Hreach. rewrite reply_after_quick_replies by exact Hreach.
  destruct (find_best_local_answer_in_range (strip user_input) kb FUZZY_CUTOFF
                                            eq_refl eq_refl)
    as [[[match_key answer] score] Hfind].
  unfold bind at 1. unfold lift. rewrite Hfind.
  destruct (truthy answer) eqn:Et.
  - destruct answer as [[|c a]|]; try discriminate. simpl format_value.
    destruct (Qlt_bool score (8 # 10)); unfold ret;
      do 2 eexists; (split; [reflexivity | split; [discriminate | auto]]).
  - destruct (fetch_wikipedia_summary_truthy
                World wikipedia_search wikipedia_summary
                (strip user_input) WIKI_SENTENCES s)
      as [wiki_ans [s' [Hfetch Hans]]].
    unfold bind. rewrite Hfetch.
    assert (Hs' : s' = snd (fetch (strip user_input) WIKI_SENTENCES s))
      by (rewrite Hfetch; reflexivity).
    destruct Hans as [-> | Hans].
    + simpl. unfold ret. do 2 eexists.
      split; [reflexivity | split; [discriminate | auto]].
    + rewrite Hans. destruct wiki_ans as [[|c t]|]; try discriminate.
      unfold ret. do 2 eexists.
      split; [reflexivity | split; [discriminate | auto]].
Qed.

Lemma chatbot_reply_returns_text
      (kb : dict) (user_input : str) (s : state World) :
  exists text s',
    reply kb user_input s = (Return text, s') /\ text <> [].
Proof.
  destruct (reaches_local_lookup user_input) eqn:E.
  - destruct (reply_looked_up kb user_input s E) as [text [s' [H1 [H2 _]]]].
    eauto.
  - destruct (reply_canned kb user_input s E) as [text [H1 H2]].
    exists text, s. auto.
Qed.

(** X13. For every knowledge base, every provider and every input
    [chatbot_reply] returns, it never raises, and its reply is never
    the empty string. *)
Theorem chatbot_reply_always_answers
        (kb : dict) (user_input : str) (s : state World) :
  exists text s',
    reply kb user_input s = (Return text, s') /\ text <> [].
Proof. apply chatbot_reply_returns_text. Qed.

Lemma reply_calls (kb : dict) (user_input : str) (s : state World) :
  calls (snd (reply kb user_input s)) = calls s \/
  exists more,
    calls (snd (reply kb user_input s))
    = calls s ++ CallSearch (strip user_input) 5 :: more /\
    length more <= 2 /\
    Forall (fun c => exists title,
                c = CallSummary title WIKI_SENTENCES false true) more.
Proof.
  destruct (reaches_local_lookup user_input) eqn:E.
  - destruct (reply_looked_up kb user_input s E)
      as [text [s' [H1 [_ [-> | ->]]]]]; rewrite H1; simpl; [auto|].
    right. apply fetch_wikipedia_summary_calls.
  - destruct (reply_canned kb user_input s E) as [text [_ H]].
    rewrite (H kb s). auto.
Qed.

(** X14. One reply costs at most three requests to the provider, a
    search followed by at most two summary requests, and none at all
    when a quick reply or a local answer is given; the earlier log is
    kept. *)
Theorem chatbot_reply_requests
        (kb : dict) (user_input : str) (s : state World) :
  calls (snd (reply kb user_input s)) = calls s \/
  exists more,
    calls (snd (reply kb user_input s))
    = calls s ++ CallSearch (strip user_input) 5 :: more /\
    length more <= 2 /\
    Forall (fun c => exists title,
                c = CallSummary title WIKI_SENTENCES false true) more.
Proof. apply reply_calls. Qed.

(** X15. The quick replies use neither the knowledge base nor the
    provider: an input that one of the guards stops gets the same
    reply with every knowledge base, and the state is unchanged. *)
Theorem chatbot_reply_quick_replies
        (kb kb' : dict) (user_input : str) (s : state World) :
  reaches_local_lookup user_input = false ->
  reply kb user_input s = reply kb' user_input s /\
  snd (reply kb user_input s) = s.
Proof.
  intros H. destruct (reply_canned kb user_input s H) as [text [_ Ht]].
  rewrite (Ht kb s), (Ht kb' s). auto.
Qed.

(** X16. [chatbot_reply] does not see the whitespace around its input:
    the trimmed input gets the same reply and makes the same
    requests. *)
Theorem chatbot_reply_margin (kb : dict) (user_input : str) (s : state World) :
  reply kb (strip user_input) s = reply kb user_input s.
Proof. unfold chatbot_reply. rewrite strip_idem. reflexivity. Qed.

(** X17. An input that is empty or made of whitespace only gets the
    request to type something, whatever the knowledge base holds;
    nothing is looked up and nothing is requested. *)
Theorem chatbot_reply_blank (kb : dict) (user_input : str) (s : state World) :
  forallb is_space user_input = true ->
  reply kb user_input s
  = (Return (lit "Please type something — I didn't get your message."), s).
Proof.
  intros H. unfold chatbot_reply. rewrite (strip_blank _ H). reflexivity.
Qed.

(** X18. A question that normalizes to a key of the knowledge base and
    passes the quick-reply rules gets the answer stored under that
    key, if it is not empty, without the "(Local)" mark and without a
    request to the provider. *)
Theorem chatbot_reply_known_question
        (kb : dict) (user_input : str) (s : state World) (answer : str) :
  reaches_local_lookup user_input = true ->
  dict_get kb (normalize_text user_input) = Some answer ->
  answer <> [] ->
  reply kb user_input s = (Return answer, s).
Proof.
  intros Hreach Hget Ha. pose proof (dict_get_In _ _ _ Hget) as Hin.
  destruct (find_best_local_answer_normalized_key_aux
              user_input kb Hin) as [a [Hget' Hfind]].
  rewrite Hget in Hget'. injection Hget' as <-.
  rewrite <- find_best_local_answer_strip in Hfind.
  rewrite (reply_local_answer World wikipedia_search wikipedia_summary
                              kb user_input s _ answer 1%Q Hreach Hfind Ha).
  reflexivity.
Qed.

End ReplyContract.

Lemma chatbot_reply_blank_witness :
  chatbot_reply silent_search silent_summary QA_KB (lit "   ") start
  = (Return (lit "Please type something — I didn't get your message."),
     start).
Proof.
  apply (chatbot_reply_blank unit silent_search silent_summary QA_KB
                             (lit "   ") start).
  reflexivity.
Defined.

Lemma chatbot_reply_quick_replies_witness :
  chatbot_reply silent_search silent_summary QA_KB (lit "Thank you") start
  = chatbot_reply silent_search silent_summary [] (lit "Thank you") start /\
  snd (chatbot_reply silent_search silent_summary QA_KB (lit "Thank you")
                     start) = start.
Proof.
  apply (chatbot_reply_quick_replies
           unit silent_search silent_summary QA_KB [] (lit "Thank you") start).
  reflexivity.
Defined.

Lemma chatbot_reply_known_question_witness :
  chatbot_reply silent_search silent_summary QA_KB (lit " What is Python? ")
                start
  = (Return (lit "Python is a high-level, interpreted programming language known for its readability and large ecosystem."),
     start).
Proof.
  apply (chatbot_reply_known_question
           unit silent_search silent_summary QA_KB (lit " What is Python? ")
           start).
  - reflexivity.
  - reflexivity.
  - discriminate.
Defined.

(** ** log_chat *)

Lemma dict_get_set_same (d : dict) (k v : str) :
  dict_get (dict_set d k v) k = Some v.
Proof.
  induction d as [|[k' v'] d IH]; simpl.
  - rewrite str_eqb_refl. reflexivity.
  - destruct (str_eqb k' k) eqn:E; simpl.
    + rewrite str_eqb_refl. reflexivity.
    + rewrite E. exact IH.
Qed.

Lemma dict_get_set_other (d : dict) (k v k0 : str) :
  str_eqb k k0 = false -> dict_get (dict_set d k v) k0 = dict_get d k0.
Proof.
  intros Hne. induction d as [|[k' v'] d IH]; simpl.
  - rewrite Hne. reflexivity.
  - destruct (str_eqb k' k) eqn:E; simpl.
    + apply str_eqb_eq in E; subst k'. rewrite Hne. reflexivity.
    + destruct (str_eqb k' k0); [reflexivity | exact IH].
Qed.

Lemma append_file_same (fs : dict) (path text : str) :
  dict_get (append_file fs path text) path
  = Some (match dict_get fs path with
          | Some content => content
          | None => []
          end ++ text).
Proof.
  unfold append_file. rewrite dict_get_set_same.
  destruct (dict_get fs path); reflexivity.
Qed.

Lemma append_file_other (fs : dict) (path text path0 : str) :
  str_eqb path path0 = false ->
  dict_get (append_file fs path text) path0 = dict_get fs path0.
Proof. intros H. unfold append_file. apply dict_get_set_other; exact H. Qed.

Lemma existsb_str_eqb_In (x : str) (l : list str) :
  existsb (str_eqb x) l = true <-> In x l.
Proof.
  rewrite existsb_exists. split.
  - intros [y [Hy E]]. apply str_eqb_eq in E. subst y. exact Hy.
  - intros H. exists x. split; [exact H | apply str_eqb_refl].
Qed.

Section SessionFacts.

Variable World : Type.
Variable wikipedia_search : str -> Z -> World -> outcome (list str) * World.
Variable wikipedia_summary :
  str -> Z -> bool -> bool -> World -> outcome str * World.
Variable strftime_now : World -> str * World.
Variable file_write : str -> str -> World -> outcome unit * World.

Local Abbreviation log := (log_chat strftime_now file_write).
Local Abbreviation put := (write_line file_write).
Local Abbreviation loop :=
  (main_loop wikipedia_search wikipedia_summary strftime_now file_write).
Local Abbreviation reply :=
  (chatbot_reply wikipedia_search wikipedia_summary).

(** One write either adds its text to the file or raises and leaves
    the files alone. *)
Lemma write_line_cases (path text : str) (m : machine World)
      (r : outcome unit) (m' : machine World) :
  put path text m = (r, m') ->
  stdout m' = stdout m /\ read_only m' = read_only m /\
  calls (net m') = calls (net m) /\
  ((r = Return tt /\ files m' = append_file (files m) path text) \/
   (exists e, r = Raise e /\
              fst (file_write path text (world (net m))) = Raise e /\
              files m' = files m)).
Proof.
  unfold write_line.
  destruct (file_write path text (world (net m))) as [[[] | e] w];
    intros H; inversion H; subst; cbn.
  - repeat split; auto.
  - repeat split; auto. right. exists e. auto.
Qed.

(** [log_chat] with logging on, step by step. *)
Lemma log_chat_on (user_text bot_text logfile : str) (m : machine World) :
  log true user_text bot_text logfile m
  = let timestamp := fst (strftime_now (world (net m))) in
    let m1 := set_world (snd (strftime_now (world (net m)))) m in
    if existsb (str_eqb logfile) (read_only m)
    then (Raise PermissionError, m1)
    else
      match put logfile
                (lit "[" ++ timestamp ++ lit "] You: " ++ user_text ++ nl)
                (set_files (append_file (files m) logfile []) m1)
      with
      | (Raise e, m2) => (Raise e, m2)
      | (Return _, m2) =>
          put logfile
              (lit "[" ++ timestamp ++ lit "] Bot: " ++ bot_text ++ nl ++ nl)
              m2
      end.
Proof.
  unfold log_chat. cbn [negb].
  destruct (strftime_now (world (net m))) as [timestamp w]. reflexivity.
Qed.

(** The four ways a call of [log_chat] ends, and what it leaves
    alone. *)
Lemma log_chat_cases (enable_chat_log : bool) (user_text bot_text logfile : str)
      (m : machine World) :
  let r := fst (log enable_chat_log user_text bot_text logfile m) in
  let m' := snd (log enable_chat_log user_text bot_text logfile m) in
  stdout m' = stdout m /\ read_only m' = read_only m /\
  calls (net m') = calls (net m) /\
  (forall path, str_eqb logfile path = false ->
                dict_get (files m') path = dict_get (files m) path) /\
  ((r = Return tt /\ enable_chat_log = false /\ m' = m) \/
   (r = Return tt /\ enable_chat_log = true /\
    ~ In logfile (read_only m) /\
    dict_get (files m') logfile
    = Some (match dict_get (files m) logfile with
            | Some content => content
            | None => []
            end ++ log_entry (fst (strftime_now (world (net m))))
                             user_text bot_text)) \/
   (r = Raise PermissionError /\ enable_chat_log = true /\
    In logfile (read_only m) /\ files m' = files m) \/
   (exists e, r = Raise e /\ enable_chat_log = true /\
              ~ In logfile (read_only m) /\
              (exists text w, fst (file_write logfile text w) = Raise e) /\
              exists added,
                dict_get (files m') logfile
                = Some (match dict_get (files m) logfile with
                        | Some content => content
                        | None => []
                        end ++ added))).
Proof.
  destruct enable_chat_log; [|cbn; repeat split; auto].
  rewrite log_chat_on. cbv zeta.
  destruct (existsb (str_eqb logfile) (read_only m)) eqn:E.
  - cbn. repeat split; auto. right; right; left.
    apply existsb_str_eqb_In in E. auto.
  - assert (Hw : ~ In logfile (read_only m)).
    { intros Hin. apply existsb_str_eqb_In in Hin. congruence. }
    destruct (put logfile
                  (lit "[" ++ fst (strftime_now (world (net m)))
                       ++ lit "] You: " ++ user_text ++ nl)
                  (set_files (append_file (files m) logfile [])
                             (set_world (snd (strftime_now (world (net m))))
                                        m)))
      as [[u | e] m2] eqn:E1;
      apply write_line_cases in E1;
      destruct E1 as [A1 [A2 [A3 A4]]];
      cbn [stdout read_only net calls files set_files set_world set_net]
        in A1, A2, A3, A4.
    + destruct A4 as [[_ A4] | [e [A4 _]]]; [|discriminate].
      destruct (put logfile
                    (lit "[" ++ fst (strftime_now (world (net m)))
                         ++ lit "] Bot: " ++ bot_text ++ nl ++ nl) m2)
        as [r3 m3] eqn:E2;
        apply write_line_cases in E2;
        destruct E2 as [B1 [B2 [B3 B4]]].
      cbn [fst snd]. split; [congruence|]. split; [congruence|].
      split; [congruence|].
      assert (Hfirst :
                dict_get (files m2) logfile
                = Some (match dict_get (files m) logfile with
                        | Some content => content
                        | None => []
                        end
                        ++ lit "[" ++ fst (strftime_now (world (net m)))
                        ++ lit "] You: " ++ user_text ++ nl)).
      { rewrite A4, !append_file_same, app_nil_r. reflexivity. }
      destruct B4 as [[B5 B4] | [e [B5 [B6 B4]]]].
      * split.
        -- intros path Hp. rewrite B4, A4, !append_file_other by exact Hp.
           reflexivity.
        -- right; left. repeat split; auto.
           rewrite B4, append_file_same, Hfirst. unfold log_entry.
           rewrite <- !app_assoc. reflexivity.
      * split.
        -- intros path Hp. rewrite B4, A4, !append_file_other by exact Hp.
           reflexivity.
        -- right; right; right. exists e. repeat split; auto.
           ++ eexists; eexists; exact B6.
           ++ eexists. rewrite B4. exact Hfirst.
    + destruct A4 as [[A4 _] | [e' [A4 [A5 A6]]]]; [discriminate|].
      injection A4 as <-.
      cbn [fst snd]. split; [exact A1|]. split; [exact A2|].
      split; [exact A3|]. split.
      * intros path Hp. rewrite A6, append_file_other by exact Hp.
        reflexivity.
      * right; right; right. exists e. repeat split; auto.
        -- eexists; eexists; exact A5.
        -- exists []. rewrite A6, append_file_same. reflexivity.
Qed.

(** X19. With logging on, a log file that can be opened and writes
    that do not fail, [log_chat] appends to that file the two lines of
    the exchange, both under the one time it read, and an empty line; a
    file that did not exist starts with them.  What the file held is
    kept, and no other file, nor the output, nor the request log
    changes. *)
Theorem log_chat_appends (user_text bot_text logfile : str) (m : machine World) :
  ~ In logfile (read_only m) ->
  (forall text w, fst (file_write logfile text w) = Return tt) ->
  let timestamp := fst (strftime_now (world (net m))) in
  let m' := snd (log true user_text bot_text logfile m) in
  fst (log true user_text bot_text logfile m) = Return tt /\
  dict_get (files m') logfile
  = Some (match dict_get (files m) logfile with
          | Some content => content
          | None => []
          end
          ++ lit "[" ++ timestamp ++ lit "] You: " ++ user_text ++ nl
          ++ lit "[" ++ timestamp ++ lit "] Bot: " ++ bot_text ++ nl ++ nl) /\
  (forall path, str_eqb logfile path = false ->
                dict_get (files m') path = dict_get (files m) path) /\
  stdout m' = stdout m /\ calls (net m') = calls (net m).
Proof.
  intros Hw Hok. simpl.
  destruct (log_chat_cases true user_text bot_text logfile m)
    as [H1 [H2 [H3 [H4 [[_ [H _]] | [[H5 [_ [_ H6]]]
                                     | [[_ [_ [H _]]]
                                       | [e [_ [_ [_ [[text [w H] ] _]]]]]]]]]]]].
  - discriminate.
  - repeat split; auto. rewrite H6. unfold log_entry.
    rewrite <- !app_assoc. reflexivity.
  - contradiction.
  - rewrite Hok in H. discriminate.
Qed.

(** X20. [log_chat] writes nothing when logging is off, and then does
    not even read the time; when the log file cannot be opened it
    raises the error of [open] and leaves every file as it was. *)
Theorem log_chat_writes_nothing
        (enable_chat_log : bool) (user_text bot_text logfile : str)
        (m : machine World) :
  enable_chat_log = false \/ In logfile (read_only m) ->
  files (snd (log enable_chat_log user_text bot_text logfile m)) = files m /\
  (enable_chat_log = false ->
   log enable_chat_log user_text bot_text logfile m = (Return tt, m)) /\
  (enable_chat_log = true ->
   fst (log enable_chat_log user_text bot_text logfile m)
   = Raise PermissionError).
Proof.
  intros H.
  destruct (log_chat_cases enable_chat_log user_text bot_text logfile m)
    as [_ [_ [_ [_ [[H1 [H2 H3]] | [[H1 [H2 [H3 _]]]
                                   | [[H1 [H2 [H3 H4]]]
                                     | [e [H1 [H2 [H3 _]]]]]]]]]]].
  - rewrite H3. repeat split; auto; [|congruence].
    intros _. subst enable_chat_log. reflexivity.
  - destruct H as [H | H]; [congruence | contradiction].
  - repeat split; auto. congruence.
  - destruct H as [H | H]; [congruence | contradiction].
Qed.

(** X27. When the first write to a log file that could be opened
    raises, [log_chat] raises that exception and does not attempt the
    second write: the file holds what it held, and a file that did not
    exist is left behind empty. *)
Theorem log_chat_write_fails (user_text bot_text logfile : str)
        (m : machine World) (e : exn) (w : World) :
  ~ In logfile (read_only m) ->
  file_write logfile
             (lit "[" ++ fst (strftime_now (world (net m))) ++ lit "] You: "
                  ++ user_text ++ nl)
             (snd (strftime_now (world (net m))))
  = (Raise e, w) ->
  log true user_text bot_text logfile m
  = (Raise e,
     {| net := {| world := w; calls := calls (net m) |};
        stdout := stdout m;
        files := dict_set (files m) logfile
                          match dict_get (files m) logfile with
                          | Some content => content
                          | None => []
                          end;
        read_only := read_only m |}).
Proof.
  intros Hw Hfail. rewrite log_chat_on. cbv zeta.
  destruct (existsb (str_eqb logfile) (read_only m)) eqn:E.
  - apply existsb_str_eqb_In in E. contradiction.
  - unfold write_line.
    cbn [stdout read_only net calls files world set_files set_world set_net].
    rewrite Hfail. unfold append_file.
    destruct (dict_get (files m) logfile) as [content|];
      [rewrite app_nil_r|]; reflexivity.
Qed.

(** ** main *)

Lemma net_write (text : str) (m : machine World) : net (write text m) = net m.
Proof. reflexivity. Qed.

Lemma main_loop_line (enable_chat_log : bool) (kb : dict)
      (text : str) (rest : list input_event) (m : machine World) :
  loop enable_chat_log kb (Line text :: rest) m
  = if is_exit text
    then (Return tt,
          print (lit "ChatBot: Goodbye!") (write (lit "You: ") m), rest)
    else
      match reply kb (strip text) (net m) with
      | (Raise e, n) => (Raise e, set_net n (write (lit "You: ") m), rest)
      | (Return bot_response, n) =>
          match log enable_chat_log (strip text) bot_response LOGFILE
                    (print (lit "ChatBot: " ++ bot_response)
                           (set_net n (write (lit "You: ") m)))
          with
          | (Raise e, m2) => (Raise e, m2, rest)
          | (Return _, m2) => loop enable_chat_log kb rest m2
          end
      end.
Proof. reflexivity. Qed.

(** The cases of one turn of the loop: the input stops, the line is an
    exit word, the exchange cannot be logged, or the loop goes on. *)
Lemma main_loop_cases
      (enable_chat_log : bool) (kb : dict)
      (P : list input_event -> machine World ->
           outcome unit * machine World * list input_event -> Prop) :
  (forall events m,
      match events with
      | Line _ :: _ => False
      | _ => True
      end ->
      P events m
        (Return tt, print (nl ++ lit "ChatBot: Bye!") (write (lit "You: ") m),
         tl events)) ->
  (forall text rest m,
      is_exit text = true ->
      P (Line text :: rest) m
        (Return tt, print (lit "ChatBot: Goodbye!") (write (lit "You: ") m),
         rest)) ->
  (forall text rest m bot_response n e m2,
      is_exit text = false ->
      reply kb (strip text) (net m) = (Return bot_response, n) ->
      bot_response <> [] ->
      log enable_chat_log (strip text) bot_response LOGFILE
          (print (lit "ChatBot: " ++ bot_response)
                 (set_net n (write (lit "You: ") m)))
      = (Raise e, m2) ->
      P (Line text :: rest) m (Raise e, m2, rest)) ->
  (forall text rest m bot_response n u m2 res,
      is_exit text = false ->
      reply kb (strip text) (net m) = (Return bot_response, n) ->
      bot_response <> [] ->
      log enable_chat_log (strip text) bot_response LOGFILE
          (print (lit "ChatBot: " ++ bot_response)
                 (set_net n (write (lit "You: ") m)))
      = (Return u, m2) ->
      P rest m2 res ->
      P (Line text :: rest) m res) ->
  forall events m, P events m (loop enable_chat_log kb events m).
Proof.
  intros Hstop Hexit Hfail Hnext.
  induction events as [|ev rest IH]; intros m.
  - apply (Hstop [] m I).
  - destruct ev as [text | |];
      [|apply (Hstop (EndOfFile :: rest) m I)
       |apply (Hstop (Interrupt :: rest) m I)].
    rewrite main_loop_line.
    destruct (is_exit text) eqn:Ex; [apply Hexit; exact Ex|].
    destruct (chatbot_reply_returns_text
                World wikipedia_search wikipedia_summary kb (strip text)
                (net m)) as [bot_response [n [Hreply Hne]]].
    rewrite Hreply.
    destruct (log enable_chat_log (strip text) bot_response LOGFILE
                  (print (lit "ChatBot: " ++ bot_response)
                         (set_net n (write (lit "You: ") m))))
      as [[u | e] m2] eqn:Elog.
    + apply (Hnext text rest m bot_response n u m2); auto.
    + apply (Hfail text rest m bot_response n e m2); auto.
Qed.

End SessionFacts.

Section MainFacts.

Variable World : Type.
Variable wikipedia_search : str -> Z -> World -> outcome (list str) * World.
Variable wikipedia_summary :
  str -> Z -> bool -> bool -> World -> outcome str * World.
Variable strftime_now : World -> str * World.
Variable file_write : str -> str -> World -> outcome unit * World.

Local Abbreviation log := (log_chat strftime_now file_write).
Local Abbreviation loop :=
  (main_loop wikipedia_search wikipedia_summary strftime_now file_write).
Local Abbreviation run :=
  (main wikipedia_search wikipedia_summary strftime_now file_write).
Local Abbreviation reply :=
  (chatbot_reply wikipedia_search wikipedia_summary).
Local Abbreviation cases :=
  (main_loop_cases World wikipedia_search wikipedia_summary strftime_now
                   file_write).
Local Abbreviation log_cases := (log_chat_cases World strftime_now file_write).

Ltac fields := cbn [stdout files read_only net print write set_net fst snd].

Ltac fields_in H :=
  cbn [stdout files read_only net print write set_net fst snd] in H.

(** *** How a session ends *)




(** *** What a session prints *)

Lemma main_loop_output (enable_chat_log : bool) (kb : dict) :
  forall events m,
    let res := loop enable_chat_log kb events m in
    (exists out, stdout (snd (fst res)) = stdout m ++ lit "You: " ++ out) /\
    (fst (fst res) = Return tt ->
     exists before,
       stdout (snd (fst res)) = before ++ lit "ChatBot: Goodbye!" ++ nl \/
       stdout (snd (fst res)) = before ++ nl ++ lit "ChatBot: Bye!" ++ nl).
Proof.
  apply (cases enable_chat_log kb
               (fun events m res =>
                  (exists out,
                      stdout (snd (fst res)) = stdout m ++ lit "You: " ++ out)
                  /\
                  (fst (fst res) = Return tt ->
                   exists before,
                     stdout (snd (fst res))
                     = before ++ lit "ChatBot: Goodbye!" ++ nl \/
                     stdout (snd (fst res))
                     = before ++ nl ++ lit "ChatBot: Bye!" ++ nl)));
    fields.
  - intros events m _. repeat split.
    + eexists; symmetry; apply app_assoc.
    + intros _. exists (stdout m ++ lit "You: "). right.
      rewrite <- !app_assoc. reflexivity.
  - intros text rest m _. repeat split.
    + eexists; symmetry; apply app_assoc.
    + intros _. exists (stdout m ++ lit "You: "). left. reflexivity.
  - intros text rest m bot_response n e m2 _ _ Hne Hlog.
    destruct (log_cases enable_chat_log (strip text) bot_response LOGFILE
                        (print (lit "ChatBot: " ++ bot_response)
                               (set_net n (write (lit "You: ") m))))
      as [H1 _].
    rewrite Hlog in H1. fields_in H1. repeat split.
    + rewrite H1, <- app_assoc. eexists; reflexivity.
    + discriminate.
  - intros text rest m bot_response n u m2 res _ _ _ Hlog [[out IH1] IH2].
    destruct (log_cases enable_chat_log (strip text) bot_response LOGFILE
                        (print (lit "ChatBot: " ++ bot_response)
                               (set_net n (write (lit "You: ") m))))
      as [H1 _].
    rewrite Hlog in H1. fields_in H1. repeat split; auto.
    rewrite IH1, H1, <- !app_assoc. eexists; reflexivity.
Qed.

(** X22. What [main] prints comes after what was on the output: first
    the banner and an empty line, then the first prompt; and when
    [main] ends normally the last thing printed is one of its two
    farewells. *)
Theorem main_output (enable_chat_log : bool) (kb : dict)
        (events : list input_event) (m : machine World) :
  let res := run enable_chat_log kb events m in
  (exists out,
      stdout (snd (fst res))
      = stdout m
        ++ lit "Hybrid ChatBot: Hello! (type 'help' for tips, 'exit' to quit)"
        ++ nl ++ nl ++ lit "You: " ++ out) /\
  (fst (fst res) = Return tt ->
   exists before,
     stdout (snd (fst res)) = before ++ lit "ChatBot: Goodbye!" ++ nl \/
     stdout (snd (fst res)) = before ++ nl ++ lit "ChatBot: Bye!" ++ nl).
Proof.
  unfold main.
  destruct (main_loop_output enable_chat_log kb events (print BANNER m))
    as [[out H1] H2].
  split; [|exact H2]. exists out. rewrite H1. fields. unfold BANNER.
  rewrite <- !app_assoc. reflexivity.
Qed.

(** X23. With logging on and a transcript file that cannot be opened,
    [main] answers the first line, when it is not an exit word, and
    stops there with the error of [open]: the output holds the banner,
    the prompt and the reply that [chatbot_reply] gave for the trimmed
    line, the time was read once, no file changed, and the lines after
    it are left unread.  The reply reaches the user, the record does
    not. *)
Theorem main_reply_before_log (kb : dict) (text : str)
        (rest : list input_event) (m : machine World)
        (bot_response : str) (n : state World) :
  In LOGFILE (read_only m) ->
  is_exit text = false ->
  reply kb (strip text) (net m) = (Return bot_response, n) ->
  run true kb (Line text :: rest) m
  = (Raise PermissionError,
     {| net := {| world := snd (strftime_now (world n)); calls := calls n |};
        stdout := stdout m ++ BANNER ++ nl ++ lit "You: "
                         ++ lit "ChatBot: " ++ bot_response ++ nl;
        files := files m;
        read_only := read_only m |},
     rest).
Proof.
  intros Hin Hexit Hreply. unfold main.
  rewrite main_loop_line, Hexit. fields. rewrite Hreply.
  rewrite log_chat_on. cbv zeta. fields.
  apply existsb_str_eqb_In in Hin. rewrite Hin.
  unfold set_world, set_net, print, write.
  cbn [net stdout files read_only calls world].
  rewrite <- !app_assoc. reflexivity.
Qed.

(** *** What a session reads and answers *)

Lemma main_loop_session (enable_chat_log : bool) (kb : dict) :
  forall events m,
    let res := loop enable_chat_log kb events m in
    fst (fst res) = Return tt ->
    exists lines replies stop,
      Forall (fun text => is_exit text = false) lines /\
      Forall2 (fun text bot_response =>
                 bot_response <> [] /\
                 exists s s',
                   reply kb (strip text) s = (Return bot_response, s'))
              lines replies /\
      events = map Line lines
                   ++ match stop with
                      | Some ev => ev :: snd res
                      | None => []
                      end /\
      match stop with
      | Some ev => is_stop ev = true
      | None => snd res = []
      end /\
      stdout (snd (fst res))
      = stdout m ++ concat (map reply_block replies)
               ++ lit "You: " ++ farewell stop.
Proof.
  apply (cases enable_chat_log kb
               (fun events m res =>
                  fst (fst res) = Return tt ->
                  exists lines replies stop,
                    Forall (fun text => is_exit text = false) lines /\
                    Forall2 (fun text bot_response =>
                               bot_response <> [] /\
                               exists s s',
                                 reply kb (strip text) s
                                 = (Return bot_response, s'))
                            lines replies /\
                    events = map Line lines
                                 ++ match stop with
                                    | Some ev => ev :: snd res
                                    | None => []
                                    end /\
                    match stop with
                    | Some ev => is_stop ev = true
                    | None => snd res = []
                    end /\
                    stdout (snd (fst res))
                    = stdout m ++ concat (map reply_block replies)
                             ++ lit "You: " ++ farewell stop));
    fields.
  - intros events m Hev _. exists [], [].
    destruct events as [|[text | |] rest]; [|contradiction | |].
    + exists None. repeat split; auto.
      unfold farewell. cbn [map concat app]. rewrite <- !app_assoc.
      reflexivity.
    + exists (Some EndOfFile). repeat split; auto.
      unfold farewell. cbn [map concat app]. rewrite <- !app_assoc.
      reflexivity.
    + exists (Some Interrupt). repeat split; auto.
      unfold farewell. cbn [map concat app]. rewrite <- !app_assoc.
      reflexivity.
  - intros text rest m Hexit _. exists [], [], (Some (Line text)).
    repeat split; auto.
    unfold farewell. cbn [map concat app]. rewrite <- !app_assoc.
    reflexivity.
  - discriminate.
  - intros text rest m bot_response n u m2 res Hexit Hreply Hne Hlog IH Hres.
    destruct (IH Hres) as [lines [replies [stop [F1 [F2 [F3 [F4 F5]]]]]]].
    destruct (log_chat_cases World strftime_now file_write
                             enable_chat_log (strip text) bot_response LOGFILE
                             (print (lit "ChatBot: " ++ bot_response)
                                    (set_net n (write (lit "You: ") m))))
      as [H1 _].
    rewrite Hlog in H1. fields_in H1.
    exists (text :: lines), (bot_response :: replies), stop.
    repeat split; auto.
    + constructor; [|exact F2]. split; [exact Hne|]. eauto.
    + cbn [map app]. rewrite <- F3. reflexivity.
    + rewrite F5, H1. cbn [map concat]. unfold reply_block.
      rewrite <- !app_assoc. reflexivity.
Qed.

(** X24. When [main] ends normally it has read the lines up to the
    first one that is "exit" or "quit" (in any case, with any
    whitespace around it), to the end of the input or to an interrupt;
    it has read that event and nothing after it, and an input that is
    used up ends the session as the end of the input does.  After the
    banner it has printed, for each line in front of that event and in
    their order, the prompt and a reply that is not empty and that
    [chatbot_reply] returns for the trimmed line; then one more prompt
    and the farewell, "ChatBot: Goodbye!" after an exit word, an empty
    line and "ChatBot: Bye!" otherwise. *)
Theorem main_reads (enable_chat_log : bool) (kb : dict)
        (events : list input_event) (m : machine World) :
  fst (fst (run enable_chat_log kb events m)) = Return tt ->
  exists lines replies stop,
    Forall (fun text => is_exit text = false) lines /\
    Forall2 (fun text bot_response =>
               bot_response <> [] /\
               exists s s',
                 reply kb (strip text) s = (Return bot_response, s'))
            lines replies /\
    events = map Line lines
                 ++ match stop with
                    | Some ev => ev :: snd (run enable_chat_log kb events m)
                    | None => []
                    end /\
    match stop with
    | Some ev => is_stop ev = true
    | None => snd (run enable_chat_log kb events m) = []
    end /\
    stdout (snd (fst (run enable_chat_log kb events m)))
    = stdout m ++ BANNER ++ nl ++ concat (map reply_block replies)
             ++ lit "You: " ++ farewell stop.
Proof.
  unfold main. intros H.
  destruct (main_loop_session enable_chat_log kb events (print BANNER m) H)
    as [lines [replies [stop [F1 [F2 [F3 [F4 F5]]]]]]].
  exists lines, replies, stop. repeat split; auto.
  rewrite F5. fields. rewrite <- !app_assoc. reflexivity.
Qed.

(** *** What a session writes *)

Lemma log_content_appended (fs fs' : dict) (text : str) :
  dict_get fs' LOGFILE
  = Some (match dict_get fs LOGFILE with
          | Some content => content
          | None => []
          end ++ text) ->
  log_content fs' = log_content fs ++ text.
Proof. unfold log_content. intros ->. reflexivity. Qed.

Lemma main_loop_files (enable_chat_log : bool) (kb : dict) :
  forall events m,
    let res := loop enable_chat_log kb events m in
    (forall path, str_eqb LOGFILE path = false ->
                  dict_get (files (snd (fst res))) path
                  = dict_get (files m) path) /\
    (enable_chat_log = false -> files (snd (fst res)) = files m) /\
    (exists added,
        log_content (files (snd (fst res)))
        = log_content (files m) ++ added).
Proof.
  apply (cases enable_chat_log kb
               (fun events m res =>
                  (forall path, str_eqb LOGFILE path = false ->
                                dict_get (files (snd (fst res))) path
                                = dict_get (files m) path) /\
                  (enable_chat_log = false ->
                   files (snd (fst res)) = files m) /\
                  (exists added,
                      log_content (files (snd (fst res)))
                      = log_content (files m) ++ added)));
    fields.
  - intros events m _. repeat split; auto.
    exists []. rewrite app_nil_r. reflexivity.
  - intros text rest m _. repeat split; auto.
    exists []. rewrite app_nil_r. reflexivity.
  - intros text rest m bot_response n e m2 _ _ _ Hlog.
    destruct (log_cases enable_chat_log (strip text) bot_response LOGFILE
                        (print (lit "ChatBot: " ++ bot_response)
                               (set_net n (write (lit "You: ") m))))
      as [_ [_ [_ [H4 H]]]].
    rewrite Hlog in H4, H. fields_in H4. fields_in H.
    destruct H as [[H _] | [[H _] | [[_ [H' [_ H'']]]
                                    | [e' [_ [H' [_ [_ [added H'']]]]]]]]];
      try discriminate.
    + rewrite H''. repeat split; auto.
      exists []. rewrite app_nil_r. reflexivity.
    + repeat split; [exact H4 | congruence |].
      apply log_content_appended in H''. exists added. exact H''.
  - intros text rest m bot_response n u m2 res _ _ _ Hlog
           [IH1 [IH2 [added IH3]]].
    destruct (log_cases enable_chat_log (strip text) bot_response LOGFILE
                        (print (lit "ChatBot: " ++ bot_response)
                               (set_net n (write (lit "You: ") m))))
      as [_ [_ [_ [H4 H]]]].
    rewrite Hlog in H4, H. fields_in H4. fields_in H.
    repeat split.
    + intros path Hp. rewrite IH1, H4 by exact Hp. reflexivity.
    + intros Hoff. rewrite (IH2 Hoff).
      destruct H as [[_ [_ H]] | [[_ [H _]] | [[H _] | [e [H _]]]]];
        [rewrite H; reflexivity | congruence | discriminate | discriminate].
    + destruct H as [[_ [_ H]] | [[_ [_ [_ H]]] | [[H _] | [e [H _]]]]];
        [| |discriminate | discriminate].
      * exists added. rewrite IH3, H. reflexivity.
      * apply log_content_appended in H.
        eexists. rewrite IH3, H, <- app_assoc. reflexivity.
Qed.

(** X25. [main] changes no file but the transcript, and the transcript
    only grows: what it held stays in front.  With logging off no file
    changes at all. *)
Theorem main_files (enable_chat_log : bool) (kb : dict)
        (events : list input_event) (m : machine World) :
  let m' := snd (fst (run enable_chat_log kb events m)) in
  (forall path, str_eqb LOGFILE path = false ->
                dict_get (files m') path = dict_get (files m) path) /\
  (enable_chat_log = false -> files m' = files m) /\
  (exists added, log_content (files m') = log_content (files m) ++ added).
Proof.
  unfold main.
  apply (main_loop_files enable_chat_log kb events (print BANNER m)).
Qed.



End MainFacts.

Lemma main_reply_before_log_witness :
  main silent_search silent_summary noon disk true QA_KB
       [Line (lit " Hello "); Line (lit "exit")] locked
  = (Raise PermissionError,
     {| net := {| world := snd (noon (world start)); calls := calls start |};
        stdout := stdout locked ++ BANNER ++ nl ++ lit "You: "
                         ++ lit "ChatBot: "
                         ++ lit "Hello! How can I help you today?" ++ nl;
        files := files locked;
        read_only := read_only locked |},
     [Line (lit "exit")]).
Proof.
  apply (main_reply_before_log
           unit silent_search silent_summary noon disk QA_KB
           (lit " Hello ") [Line (lit "exit")] locked
           GREETING start).
  - left. reflexivity.
  - reflexivity.
  - reflexivity.
Defined.

Lemma main_reads_witness :
  exists lines replies stop,
    Forall (fun text => is_exit text = false) lines /\
    Forall2 (fun text bot_response =>
               bot_response <> [] /\
               exists s s',
                 chatbot_reply silent_search silent_summary QA_KB
                               (strip text) s
                 = (Return bot_response, s'))
            lines replies /\
    [Line (lit "hello"); Line (lit " Quit "); Line (lit "what is ai")]
    = map Line lines
          ++ match stop with
             | Some ev =>
                 ev :: snd (main silent_search silent_summary noon disk
                                 ENABLE_CHAT_LOG QA_KB
                                 [Line (lit "hello"); Line (lit " Quit ");
                                  Line (lit "what is ai")] fresh)
             | None => []
             end /\
    match stop with
    | Some ev => is_stop ev = true
    | None =>
        snd (main silent_search silent_summary noon disk
                  ENABLE_CHAT_LOG QA_KB
                  [Line (lit "hello"); Line (lit " Quit ");
                   Line (lit "what is ai")] fresh) = []
    end /\
    stdout (snd (fst (main silent_search silent_summary noon disk
                           ENABLE_CHAT_LOG QA_KB
                           [Line (lit "hello"); Line (lit " Quit ");
                            Line (lit "what is ai")] fresh)))
    = stdout fresh ++ BANNER ++ nl ++ concat (map reply_block replies)
             ++ lit "You: " ++ farewell stop.
Proof.
  apply (main_reads
           unit silent_search silent_summary noon disk ENABLE_CHAT_LOG QA_KB
           [Line (lit "hello"); Line (lit " Quit "); Line (lit "what is ai")]
           fresh).
  reflexivity.
Defined.


Lemma log_chat_appends_witness :
  let timestamp := fst (noon (world (net fresh))) in
  let m' :=
    snd (log_chat noon disk true (lit "hi") (lit "Hello!") LOGFILE fresh) in
  fst (log_chat noon disk true (lit "hi") (lit "Hello!") LOGFILE fresh)
  = Return tt /\
  dict_get (files m') LOGFILE
  = Some (match dict_get (files fresh) LOGFILE with
          | Some content => content
          | None => []
          end
          ++ lit "[" ++ timestamp ++ lit "] You: " ++ lit "hi" ++ nl
          ++ lit "[" ++ timestamp ++ lit "] Bot: " ++ lit "Hello!" ++ nl ++ nl) /\
  (forall path, str_eqb LOGFILE path = false ->
                dict_get (files m') path = dict_get (files fresh) path) /\
  stdout m' = stdout fresh /\ calls (net m') = calls (net fresh).
Proof.
  apply (log_chat_appends unit noon disk (lit "hi") (lit "Hello!") LOGFILE
                          fresh).
  - intros [].
  - reflexivity.
Defined.

Lemma log_chat_writes_nothing_witness :
  files (snd (log_chat noon disk true (lit "hi") (lit "Hello!") LOGFILE locked))
  = files locked /\
  (true = false ->
   log_chat noon disk true (lit "hi") (lit "Hello!") LOGFILE locked
   = (Return tt, locked)) /\
  (true = true ->
   fst (log_chat noon disk true (lit "hi") (lit "Hello!") LOGFILE locked)
   = Raise PermissionError).
Proof.
  apply (log_chat_writes_nothing
           unit noon disk true (lit "hi") (lit "Hello!") LOGFILE locked).
  right. left. reflexivity.
Defined.

Lemma log_chat_write_fails_witness :
  log_chat noon full_disk true (lit "hi") (lit "Hello!") LOGFILE fresh
  = (Raise (OtherException 28),
     {| net := {| world := tt; calls := calls (net fresh) |};
        stdout := stdout fresh;
        files := dict_set (files fresh) LOGFILE
                          match dict_get (files fresh) LOGFILE with
                          | Some content => content
                          | None => []
                          end;
        read_only := read_only fresh |}).
Proof.
  apply (log_chat_write_fails
           unit noon full_disk (lit "hi") (lit "Hello!") LOGFILE fresh
           (OtherException 28) tt).
  - intros [].
  - reflexivity.
Defined.
